(** * The exchange simulator of [src/main.cpp]: order book and matching loop

    The development embeds [struct Order] and [class ExchangeSimulator]
    (lines 30-95 of [src/main.cpp]) and states the properties of
    [placeOrder] and [matchOrders].

    Conventions of the embedding:
    - a C++ [double] is an IEEE 754 value, [spec_float] of the standard
      library; the program only compares prices, with [>], [<] and [>=];
    - a C++ [int] is a [Z] in the range [INT_MIN .. INT_MAX]; signed overflow
      is undefined behaviour in C++ and is modelled as the absence of a
      result ([None]);
    - [std::vector<Order>] is a [list Order], index [0] is the head;
    - the text written to [std::cout] by [matchOrders] is the list of the
      trades it prints, in the order it prints them;
    - [std::sort] is the standard library's, not this program's: it is a
      parameter of the model, constrained by the contract the C++ standard
      gives it (a sorted permutation; no promise on equivalent elements).
      The properties are proved for every implementation of the contract;
      time priority, which the contract does not give, is proved of the
      implementation of the GNU C++ library, modelled from its headers;
      the examples are evaluated with that implementation. *)

From Stdlib Require Import ZArith Arith List Bool Lia Permutation Sorted.
From Stdlib Require Import Floats.SpecFloat.
Import ListNotations.
Local Open Scope Z_scope.

(** ** [double]: comparisons of IEEE 754 values *)

Module Double.

Definition double : Type := spec_float.

Definition is_nan (x : double) : bool :=
  match x with S754_nan => true | _ => false end.

(** [x > y], [x >= y], [x < y], [x <= y] and [x == y] of C++: all false
    as soon as one operand is a NaN. *)
Definition gtb (x y : double) : bool :=
  match SFcompare x y with Some Gt => true | _ => false end.

Definition geb (x y : double) : bool :=
  match SFcompare x y with Some (Gt | Eq) => true | _ => false end.

Definition ltb (x y : double) : bool := SFltb x y.

Definition leb (x y : double) : bool := SFleb x y.

Definition eqb (x y : double) : bool := SFeqb x y.

(** The binary64 value of an integer literal such as [100.0]. *)
Definition of_Z (z : Z) : double := binary_normalize 53 1024 z 0 false.

Definition zero : double := S754_zero false.

(** A key whose lexicographic order is the order of the values that are
    not NaN: class (infinities, sign, zero), then exponent, then
    mantissa. *)
Definition key (x : double) : Z * Z * Z :=
  match x with
  | S754_nan => (0, 0, 0)
  | S754_zero _ => (0, 0, 0)
  | S754_infinity true => (-2, 0, 0)
  | S754_infinity false => (2, 0, 0)
  | S754_finite true m e => (-1, - e, Z.neg m)
  | S754_finite false m e => (1, e, Z.pos m)
  end.

Definition lex_lt (k1 k2 : Z * Z * Z) : Prop :=
  let '(a1, b1, c1) := k1 in
  let '(a2, b2, c2) := k2 in
  a1 < a2 \/ (a1 = a2 /\ (b1 < b2 \/ (b1 = b2 /\ c1 < c2))).

Definition lex_eq (k1 k2 : Z * Z * Z) : Prop :=
  let '(a1, b1, c1) := k1 in
  let '(a2, b2, c2) := k2 in
  a1 = a2 /\ b1 = b2 /\ c1 = c2.

Definition lex_compare (k1 k2 : Z * Z * Z) : comparison :=
  let '(a1, b1, c1) := k1 in
  let '(a2, b2, c2) := k2 in
  match a1 ?= a2 with
  | Eq => match b1 ?= b2 with Eq => c1 ?= c2 | r => r end
  | r => r
  end.

End Double.

(** ** [int]: 32-bit signed integers *)

Definition INT_MAX : Z := 2147483647.
Definition INT_MIN : Z := -2147483648.

Definition is_int (z : Z) : bool := (INT_MIN <=? z) && (z <=? INT_MAX).

(** The result of an [int] operation whose mathematical value is [z]:
    defined only when [z] is representable. *)
Definition int_result (z : Z) : option Z :=
  if is_int z then Some z else None.

Definition int_sub (a b : Z) : option Z := int_result (a - b).
Definition int_incr (a : Z) : option Z := int_result (a + 1).

Notation "' p <- e ;; k" :=
  (match e with Some p => k | None => None end)
  (at level 61, p pattern, e at next level, right associativity).

(** ** The data model (lines 30-48) *)

Record Order : Type := mkOrder {
  id : Z;
  isBuy : bool;
  price : Double.double;
  quantity : Z
}.

Record ExchangeSimulator : Type := mkExchange {
  buyOrders : list Order;
  sellOrders : list Order;
  orderIdCounter : Z
}.

(** The constructor: [orderIdCounter(0)], both vectors empty. *)
Definition ExchangeSimulator_new : ExchangeSimulator :=
  {| buyOrders := []; sellOrders := []; orderIdCounter := 0 |}.

(** One line ["Trade executed: q units at $p"] of the output. *)
Record Trade : Type := mkTrade {
  trade_quantity : Z;
  trade_price : Double.double
}.

(** ** [std::sort] *)

(** The two comparators of [placeOrder] (lines 55 and 59). *)
Definition price_greater (a b : Order) : bool :=
  Double.gtb (price a) (price b).

Definition price_less (a b : Order) : bool :=
  Double.ltb (price a) (price b).

Section Comparator.
Context {A : Type} (comp : A -> A -> bool).

(** Equivalence under a comparator: neither is before the other. *)
Definition equiv (x y : A) : bool := negb (comp x y) && negb (comp y x).

(** [comp] is a strict weak ordering on the values that satisfy [P]: the
    requirement of the standard on the comparator of [std::sort]. *)
Definition strict_weak_on (P : A -> Prop) : Prop :=
  (forall x, P x -> comp x x = false) /\
  (forall x y z, P x -> P y -> P z ->
     comp x y = true -> comp y z = true -> comp x z = true) /\
  (forall x y z, P x -> P y -> P z ->
     equiv x y = true -> equiv y z = true -> equiv x z = true).

(** The range is sorted: no element is before an element on its left. *)
Definition sorted_by (l : list A) : Prop :=
  StronglySorted (fun a b => comp b a = false) l.

(** Insertion sort: the elements are inserted one by one, the last one
    first.  [pass x y] tells whether the element [x] being inserted moves
    past [y]. *)
Fixpoint insert_by (pass : A -> A -> bool) (x : A) (l : list A) : list A :=
  match l with
  | [] => [x]
  | y :: l' => if pass x y then y :: insert_by pass x l' else x :: y :: l'
  end.

Definition insertion_sort_by (pass : A -> A -> bool) (l : list A) : list A :=
  fold_right (insert_by pass) [] l.

End Comparator.

(** What the program may assume of [std::sort(first, last, comp)]: when
    [comp] is a strict weak ordering on the elements of the range, the
    range is permuted into sorted order.  The order of equivalent elements
    is not part of the contract. *)
Record StdSort : Type := mkStdSort {
  std_sort : forall A : Type, (A -> A -> bool) -> list A -> list A;
  std_sort_permutation : forall A (comp : A -> A -> bool) (l : list A),
    strict_weak_on comp (fun x => In x l) ->
    Permutation l (std_sort A comp l);
  std_sort_sorted : forall A (comp : A -> A -> bool) (l : list A),
    strict_weak_on comp (fun x => In x l) ->
    sorted_by comp (std_sort A comp l)
}.

Arguments std_sort _ {A} comp l.

(** A sort that keeps equivalent elements in their input order. *)
Definition stable (S : StdSort) : Prop :=
  forall A (comp : A -> A -> bool) (l : list A) (z : A),
    strict_weak_on comp (fun x => In x l \/ x = z) ->
    filter (equiv comp z) (std_sort S comp l) = filter (equiv comp z) l.

(** A sort that does so in the ranges of at most [n] elements. *)
Definition stable_up_to (n : nat) (S : StdSort) : Prop :=
  forall A (comp : A -> A -> bool) (l : list A) (z : A),
    (length l <= n)%nat ->
    strict_weak_on comp (fun x => In x l \/ x = z) ->
    filter (equiv comp z) (std_sort S comp l) = filter (equiv comp z) l.

(** ** [matchOrders] (lines 65-81) *)

Definition with_quantity (o : Order) (q : Z) : Order :=
  {| id := id o; isBuy := isBuy o; price := price o; quantity := q |}.

(** [if (v[0].quantity == 0) v.erase(v.begin());] *)
Definition erase_if_zero (v : list Order) : list Order :=
  match v with
  | o :: v' => if quantity o =? 0 then v' else v
  | [] => []
  end.

(** The outcome of one evaluation of the loop condition and body. *)
Inductive iteration : Type :=
| Break                                          (* the loop is left *)
| Continue (t : Trade) (s : ExchangeSimulator)   (* one trade, go on *)
| Undefined.                                     (* signed overflow *)

Definition match_iter (s : ExchangeSimulator) : iteration :=
  match buyOrders s, sellOrders s with
  | b :: bs, a :: sells =>
      if Double.geb (price b) (price a) then
        let q := Z.min (quantity b) (quantity a) in
        match int_sub (quantity b) q, int_sub (quantity a) q with
        | Some qb, Some qa =>
            Continue {| trade_quantity := q; trade_price := price a |}
                     {| buyOrders := erase_if_zero (with_quantity b qb :: bs);
                        sellOrders := erase_if_zero (with_quantity a qa :: sells);
                        orderIdCounter := orderIdCounter s |}
        | _, _ => Undefined
        end
      else Break
  | _, _ => Break
  end.

(** The [while] loop, as the executions it has. *)
Inductive match_loop : ExchangeSimulator -> list Trade -> ExchangeSimulator -> Prop :=
| match_loop_break s :
    match_iter s = Break -> match_loop s [] s
| match_loop_continue s t s1 ts s2 :
    match_iter s = Continue t s1 -> match_loop s1 ts s2 ->
    match_loop s (t :: ts) s2.

(** The loop run for at most [fuel] trades. *)
Fixpoint matchOrders_fuel (fuel : nat) (s : ExchangeSimulator)
  : option (list Trade * ExchangeSimulator) :=
  match match_iter s with
  | Break => Some ([], s)
  | Undefined => None
  | Continue t s1 =>
      match fuel with
      | O => None
      | S fuel' =>
          '(ts, s2) <- matchOrders_fuel fuel' s1 ;; Some (t :: ts, s2)
      end
  end.

(** Every trade removes an order, so the number of resting orders bounds
    the number of iterations (see [matchOrders_fuel_enough]). *)
Definition matchOrders (s : ExchangeSimulator)
  : option (list Trade * ExchangeSimulator) :=
  matchOrders_fuel (length (buyOrders s) + length (sellOrders s)) s.

(** ** [placeOrder] (lines 50-63) *)

(** Lines 51-60: the order is built with the next id and put in its side,
    which is sorted again. *)
Definition insertOrder (S : StdSort) (s : ExchangeSimulator)
    (isBuy : bool) (price : Double.double) (quantity : Z)
  : option (Order * ExchangeSimulator) :=
  ' counter <- int_incr (orderIdCounter s) ;;
  let order := mkOrder (orderIdCounter s) isBuy price quantity in
  Some (order,
        if isBuy then
          {| buyOrders := std_sort S price_greater (buyOrders s ++ [order]);
             sellOrders := sellOrders s;
             orderIdCounter := counter |}
        else
          {| buyOrders := buyOrders s;
             sellOrders := std_sort S price_less (sellOrders s ++ [order]);
             orderIdCounter := counter |}).

(** What a call gives: the id returned, the trades printed, the book. *)
Record Placed : Type := mkPlaced {
  placed_id : Z;
  placed_trades : list Trade;
  placed_book : ExchangeSimulator
}.

Definition placeOrder (S : StdSort) (s : ExchangeSimulator)
    (isBuy : bool) (price : Double.double) (quantity : Z) : option Placed :=
  '(order, s1) <- insertOrder S s isBuy price quantity ;;
  '(ts, s2) <- matchOrders s1 ;;
  Some {| placed_id := id order; placed_trades := ts; placed_book := s2 |}.

(** ** Sequences of calls *)

Record Request : Type := mkRequest {
  req_isBuy : bool;
  req_price : Double.double;
  req_quantity : Z
}.

Definition submit (S : StdSort) (s : ExchangeSimulator) (r : Request)
  : option Placed :=
  placeOrder S s (req_isBuy r) (req_price r) (req_quantity r).

(** The calls of [reqs] in order; the ids and trades of each call and the
    final book. *)
Fixpoint run (S : StdSort) (s : ExchangeSimulator) (reqs : list Request)
  : option (list (Z * list Trade) * ExchangeSimulator) :=
  match reqs with
  | [] => Some ([], s)
  | r :: reqs' =>
      ' p <- submit S s r ;;
      '(outs, s') <- run S (placed_book p) reqs' ;;
      Some ((placed_id p, placed_trades p) :: outs, s')
  end.

(** The four calls of [main] (lines 149-152). *)
Definition main_orders : list Request :=
  [ mkRequest true (Double.of_Z 100) 100;
    mkRequest true (Double.of_Z 99) 50;
    mkRequest false (Double.of_Z 100) 75;
    mkRequest false (Double.of_Z 101) 25 ].

(** ** Predicates of the statements *)

(** A valid submission: price and quantity strictly positive ([quantity]
    is an [int]). *)
Definition valid_request (r : Request) : Prop :=
  Double.gtb (req_price r) Double.zero = true /\
  0 < req_quantity r <= INT_MAX.

Definition valid_order (o : Order) : Prop :=
  Double.gtb (price o) Double.zero = true /\ 0 < quantity o <= INT_MAX.

Definition nan_free (l : list Order) : Prop :=
  Forall (fun o => Double.is_nan (price o) = false) l.

(** No crossing: the front bid is strictly below the front ask, or a side
    is empty. *)
Definition non_crossing (s : ExchangeSimulator) : Prop :=
  match buyOrders s, sellOrders s with
  | b :: _, a :: _ => Double.ltb (price b) (price a) = true
  | _, _ => True
  end.

Definition total_quantity (l : list Order) : Z :=
  fold_right (fun o acc => quantity o + acc) 0 l.

Definition traded_quantity (ts : list Trade) : Z :=
  fold_right (fun t acc => trade_quantity t + acc) 0 ts.

Definition resting_quantity (s : ExchangeSimulator) : Z :=
  total_quantity (buyOrders s) + total_quantity (sellOrders s).

Definition positive_quantities (s : ExchangeSimulator) : Prop :=
  Forall (fun o => 0 < quantity o <= INT_MAX) (buyOrders s) /\
  Forall (fun o => 0 < quantity o <= INT_MAX) (sellOrders s).

(** ** The [std::sort] of the GNU C++ library

    [bits/stl_algo.h] and [bits/stl_heap.h] of libstdc++ (GCC 12): an
    introsort, that is a quicksort down to ranges of 16 elements, which
    gives way to a heap sort when its depth limit is used up, followed by
    one insertion sort.  The range is a list, iterators are positions in
    it. *)

Module Libstdcxx.
Local Open Scope nat_scope.

Section GnuSort.
Context {A : Type} (comp : A -> A -> bool) (d : A).

(** [v[i]] and [v[i] = x]. *)
Definition get (v : list A) (i : nat) : A := nth i v d.

Fixpoint put (v : list A) (i : nat) (x : A) : list A :=
  match v, i with
  | [], _ => []
  | _ :: v', O => x :: v'
  | y :: v', S i' => y :: put v' i' x
  end.

Definition iter_swap (v : list A) (i j : nat) : list A :=
  put (put v i (get v j)) j (get v i).

(** [__move_median_to_first(result, a, b, c, comp)]. *)
Definition move_median_to_first (v : list A) (result a b c : nat) : list A :=
  if comp (get v a) (get v b) then
    if comp (get v b) (get v c) then iter_swap v result b
    else if comp (get v a) (get v c) then iter_swap v result c
    else iter_swap v result a
  else if comp (get v a) (get v c) then iter_swap v result a
  else if comp (get v b) (get v c) then iter_swap v result c
  else iter_swap v result b.

(** [while (comp(first, pivot)) ++first;] *)
Fixpoint scan_up (fuel : nat) (v : list A) (pivot first : nat) : nat :=
  match fuel with
  | O => first
  | S fuel' =>
      if comp (get v first) (get v pivot)
      then scan_up fuel' v pivot (S first) else first
  end.

(** [while (comp(pivot, last)) --last;] *)
Fixpoint scan_down (fuel : nat) (v : list A) (pivot last : nat) : nat :=
  match fuel with
  | O => last
  | S fuel' =>
      if comp (get v pivot) (get v last)
      then scan_down fuel' v pivot (pred last) else last
  end.

(** [__unguarded_partition(first, last, pivot, comp)]: the cut and the
    range. *)
Fixpoint unguarded_partition (fuel : nat) (v : list A) (first last pivot : nat)
  : nat * list A :=
  match fuel with
  | O => (first, v)
  | S fuel' =>
      let first := scan_up (length v) v pivot first in
      let last := scan_down (length v) v pivot (pred last) in
      if first <? last
      then unguarded_partition fuel' (iter_swap v first last) (S first) last pivot
      else (first, v)
  end.

Definition unguarded_partition_pivot (v : list A) (first last : nat)
  : nat * list A :=
  let mid := first + (last - first) / 2 in
  let v := move_median_to_first v first (first + 1) mid (last - 1) in
  unguarded_partition (length v) v (first + 1) last first.

(** [__push_heap(first, holeIndex, topIndex, value, comp)] of
    [bits/stl_heap.h]. *)
Fixpoint push_heap (fuel : nat) (v : list A) (first holeIndex topIndex : nat)
    (value : A) : list A :=
  match fuel with
  | O => put v (first + holeIndex) value
  | S fuel' =>
      let parent := (holeIndex - 1) / 2 in
      if (topIndex <? holeIndex) && comp (get v (first + parent)) value
      then push_heap fuel' (put v (first + holeIndex) (get v (first + parent)))
             first parent topIndex value
      else put v (first + holeIndex) value
  end.

(** The loop of [__adjust_heap]: the range, [holeIndex] and
    [secondChild] after it. *)
Fixpoint sift_down (fuel : nat) (v : list A) (first holeIndex len secondChild : nat)
  : list A * nat * nat :=
  match fuel with
  | O => (v, holeIndex, secondChild)
  | S fuel' =>
      if secondChild <? (len - 1) / 2 then
        let secondChild := 2 * (secondChild + 1) in
        let secondChild :=
          if comp (get v (first + secondChild)) (get v (first + (secondChild - 1)))
          then secondChild - 1 else secondChild in
        sift_down fuel' (put v (first + holeIndex) (get v (first + secondChild)))
          first secondChild len secondChild
      else (v, holeIndex, secondChild)
  end.

(** [__adjust_heap(first, holeIndex, len, value, comp)]; [len] is at least
    1 in every call. *)
Definition adjust_heap (v : list A) (first holeIndex len : nat) (value : A)
  : list A :=
  let '(v1, hole1, secondChild) := sift_down len v first holeIndex len holeIndex in
  let '(v2, hole2) :=
    if Nat.even len && (secondChild =? (len - 2) / 2)
    then (put v1 (first + hole1) (get v1 (first + (2 * (secondChild + 1) - 1))),
          2 * (secondChild + 1) - 1)
    else (v1, hole1) in
  push_heap hole2 v2 first hole2 holeIndex value.

(** [__pop_heap(first, last, result, comp)]. *)
Definition pop_heap (v : list A) (first last result : nat) : list A :=
  let value := get v result in
  adjust_heap (put v result (get v first)) first 0 (last - first) value.

(** The loop of [__make_heap], from [parent] down to 0. *)
Fixpoint make_heap_from (v : list A) (first len parent : nat) : list A :=
  let v1 := adjust_heap v first parent len (get v (first + parent)) in
  match parent with
  | O => v1
  | S parent' => make_heap_from v1 first len parent'
  end.

(** [__make_heap(first, last, comp)]. *)
Definition make_heap (v : list A) (first last : nat) : list A :=
  if last - first <? 2 then v
  else make_heap_from v first (last - first) ((last - first - 2) / 2).

(** [__sort_heap(first, last, comp)]. *)
Fixpoint sort_heap (fuel : nat) (v : list A) (first last : nat) : list A :=
  match fuel with
  | O => v
  | S fuel' =>
      if 1 <? last - first
      then sort_heap fuel' (pop_heap v first (last - 1) (last - 1)) first (last - 1)
      else v
  end.

(** The loop of [__heap_select(first, middle, last, comp)] from [i], for
    [count] elements. *)
Fixpoint heap_select_from (count : nat) (v : list A) (first middle i : nat)
  : list A :=
  match count with
  | O => v
  | S count' =>
      heap_select_from count'
        (if comp (get v i) (get v first) then pop_heap v first middle i else v)
        first middle (S i)
  end.

Definition heap_select (v : list A) (first middle last : nat) : list A :=
  heap_select_from (last - middle) (make_heap v first middle) first middle middle.

(** [__partial_sort(first, middle, last, comp)]. *)
Definition partial_sort (v : list A) (first middle last : nat) : list A :=
  sort_heap (middle - first) (heap_select v first middle last) first middle.

(** [__introsort_loop(first, last, depth_limit, comp)], with
    [_S_threshold = 16].  Each turn of its loop uses one unit of the depth
    limit, as each recursive call does. *)
Fixpoint introsort_loop (depth_limit : nat) (v : list A) (first last : nat)
  : list A :=
  if last - first <=? 16 then v else
  match depth_limit with
  | O => partial_sort v first last last
  | S depth_limit' =>
      let '(cut, v1) := unguarded_partition_pivot v first last in
      introsort_loop depth_limit'
        (introsort_loop depth_limit' v1 cut last) first cut
  end.

(** [__unguarded_linear_insert(last, comp)].  The library relies on an
    element that stops the loop; here the loop stops at the start of the
    range at the latest. *)
Fixpoint linear_insert_loop (fuel : nat) (v : list A) (val : A) (last : nat)
  : list A :=
  match fuel, last with
  | S fuel', S next =>
      if comp val (get v next)
      then linear_insert_loop fuel' (put v last (get v next)) val next
      else put v last val
  | _, _ => put v last val
  end.

Definition unguarded_linear_insert (v : list A) (last : nat) : list A :=
  linear_insert_loop (length v) v (get v last) last.

(** [val = *i; move_backward(first, i, i + 1); *first = val;] *)
Definition move_to_front (v : list A) (i : nat) : list A :=
  get v i :: firstn i v ++ skipn (S i) v.

(** The loop of [__insertion_sort(first, last, comp)] from [i], for
    [count] elements, with [first] the start of the range. *)
Fixpoint insertion_sort_from (count : nat) (v : list A) (i : nat) : list A :=
  match count with
  | O => v
  | S count' =>
      insertion_sort_from count'
        (if comp (get v i) (get v 0) then move_to_front v i
         else unguarded_linear_insert v i)
        (S i)
  end.

Fixpoint unguarded_insertion_sort_from (count : nat) (v : list A) (i : nat)
  : list A :=
  match count with
  | O => v
  | S count' =>
      unguarded_insertion_sort_from count' (unguarded_linear_insert v i) (S i)
  end.

(** [__final_insertion_sort], with [_S_threshold = 16]. *)
Definition final_insertion_sort (v : list A) : list A :=
  let n := length v in
  if 16 <? n
  then unguarded_insertion_sort_from (n - 16) (insertion_sort_from 15 v 1) 16
  else insertion_sort_from (n - 1) v 1.

(** [std::__sort(first, last, comp)]. *)
Definition gnu_sort (v : list A) : list A :=
  match v with
  | [] => []
  | _ :: _ =>
      final_insertion_sort
        (introsort_loop (Nat.log2 (length v) * 2) v 0 (length v))
  end.

End GnuSort.

(** [std::sort(first, last, comp)] on the range [l]. *)
Definition sort {A : Type} (comp : A -> A -> bool) (l : list A) : list A :=
  match l with
  | [] => []
  | d :: _ => gnu_sort comp d l
  end.

End Libstdcxx.

(** ** Notions of the statements and of their proofs, data of the examples *)

(** Equivalent elements are in the order of their stamps. *)
Definition level_order {A : Type} (comp : A -> A -> bool) (stamp : A -> Z)
    (l : list A) : Prop :=
  StronglySorted (fun a b => equiv comp a b = true -> stamp a < stamp b) l.

(** One turn of the insertion loops of [std::sort], on the start [pre] of
    the range that is sorted already: [__insertion_sort] ([guarded]) moves
    an element that is before the first one to the front; otherwise the
    element moves left past the elements it is before, which is all that
    [__unguarded_insertion_sort] does. *)
Definition insert_step {A : Type} (comp : A -> A -> bool) (d : A)
    (guarded : bool) (pre : list A) (x : A) : list A :=
  if guarded && comp x (hd d pre) then x :: pre
  else rev (insert_by comp x (rev pre)).

Definition not_nan (o : Order) : Prop := Double.is_nan (price o) = false.


(** The resting orders are valid and each side is in the order of its
    comparator. *)
Definition book_valid (s : ExchangeSimulator) : Prop :=
  Forall valid_order (buyOrders s) /\ Forall valid_order (sellOrders s) /\
  sorted_by price_greater (buyOrders s) /\ sorted_by price_less (sellOrders s).

Definition own_side (isBuy : bool) (s : ExchangeSimulator) : list Order :=
  if isBuy then buyOrders s else sellOrders s.

Definition opposite_side (isBuy : bool) (s : ExchangeSimulator) : list Order :=
  if isBuy then sellOrders s else buyOrders s.

(** Highest price first: no order is priced below a later one. *)
Definition non_increasing_prices (l : list Order) : Prop :=
  StronglySorted (fun a b => Double.geb (price a) (price b) = true) l.

(** Lowest price first. *)
Definition non_decreasing_prices (l : list Order) : Prop :=
  StronglySorted (fun a b => Double.leb (price a) (price b) = true) l.

(** Within a price level the earlier order has the smaller id. *)
Definition time_priority (l : list Order) : Prop :=
  StronglySorted
    (fun a b => Double.eqb (price a) (price b) = true -> id a < id b) l.

(** No order of the price of [o] stands behind [o]. *)
Definition last_of_its_price (o : Order) (l : list Order) : Prop :=
  forall l1 l2, l = l1 ++ o :: l2 ->
    Forall (fun x => Double.eqb (price x) (price o) = false) l2.

(** A run of the loop in which every iteration is related by [R]. *)
Inductive steps (R : ExchangeSimulator -> Trade -> ExchangeSimulator -> Prop)
  : ExchangeSimulator -> list Trade -> ExchangeSimulator -> Prop :=
| steps_nil s : steps R s [] s
| steps_cons s t s1 ts s2 :
    R s t s1 -> steps R s1 ts s2 -> steps R s (t :: ts) s2.

(** A trade as the specification describes it: the quantity is the smaller
    of the two front quantities, the price is the front ask's, both fronts
    lose that quantity and a front left with nothing is removed. *)
Definition trade_at_fronts (s : ExchangeSimulator) (t : Trade)
    (s1 : ExchangeSimulator) : Prop :=
  exists b bs a sells,
    buyOrders s = b :: bs /\ sellOrders s = a :: sells /\
    trade_quantity t = Z.min (quantity b) (quantity a) /\
    trade_price t = price a /\
    buyOrders s1 =
      (if quantity b =? trade_quantity t then bs
       else with_quantity b (quantity b - trade_quantity t) :: bs) /\
    sellOrders s1 =
      (if quantity a =? trade_quantity t then sells
       else with_quantity a (quantity a - trade_quantity t) :: sells).

(** A trade takes its quantity from each side. *)
Definition trade_conserves (s : ExchangeSimulator) (t : Trade)
    (s1 : ExchangeSimulator) : Prop :=
  total_quantity (buyOrders s) - total_quantity (buyOrders s1)
    = trade_quantity t /\
  total_quantity (sellOrders s) - total_quantity (sellOrders s1)
    = trade_quantity t.

Definition main_outputs : list (Z * list Trade) :=
  [ (0, []); (1, []); (2, [mkTrade 75 (Double.of_Z 100)]); (3, []) ].

Definition book_after_third_order : ExchangeSimulator :=
  {| buyOrders := [ mkOrder 0 true (Double.of_Z 100) 25;
                    mkOrder 1 true (Double.of_Z 99) 50 ];
     sellOrders := [];
     orderIdCounter := 3 |}.

Definition main_book : ExchangeSimulator :=
  {| buyOrders := [ mkOrder 0 true (Double.of_Z 100) 25;
                    mkOrder 1 true (Double.of_Z 99) 50 ];
     sellOrders := [ mkOrder 3 false (Double.of_Z 101) 25 ];
     orderIdCounter := 4 |}.

(** The book of [main] after its first three calls but before the third
    one is matched: the bid of 100 and the ask of 100 cross. *)
Definition crossed_book : ExchangeSimulator :=
  {| buyOrders := [ mkOrder 0 true (Double.of_Z 100) 100;
                    mkOrder 1 true (Double.of_Z 99) 50 ];
     sellOrders := [ mkOrder 2 false (Double.of_Z 100) 75 ];
     orderIdCounter := 3 |}.

(** The example of the specification: a sell of 10 at 50 rests, a buy of 10
    at 60 arrives; the trade is made at 50 and both sides are left empty. *)
Definition resting_sell_50 : ExchangeSimulator :=
  {| buyOrders := [];
     sellOrders := [ mkOrder 0 false (Double.of_Z 50) 10 ];
     orderIdCounter := 1 |}.

Definition buy_60_placed : Placed :=
  {| placed_id := 1;
     placed_trades := [ mkTrade 10 (Double.of_Z 50) ];
     placed_book := {| buyOrders := []; sellOrders := []; orderIdCounter := 2 |} |}.

Definition sell_101 : Order := mkOrder 3 false (Double.of_Z 101) 25.

Definition book_after_first_order : ExchangeSimulator :=
  {| buyOrders := [ mkOrder 0 true (Double.of_Z 100) 100 ];
     sellOrders := [];
     orderIdCounter := 1 |}.

Definition book_after_second_order : ExchangeSimulator :=
  {| buyOrders := [ mkOrder 0 true (Double.of_Z 100) 100;
                    mkOrder 1 true (Double.of_Z 99) 50 ];
     sellOrders := [];
     orderIdCounter := 2 |}.

Definition two_bids_at_100 : list Request :=
  [ mkRequest true (Double.of_Z 100) 10; mkRequest true (Double.of_Z 100) 10 ].

Definition two_bids_reversed : ExchangeSimulator :=
  {| buyOrders := [ mkOrder 1 true (Double.of_Z 100) 10;
                    mkOrder 0 true (Double.of_Z 100) 10 ];
     sellOrders := [];
     orderIdCounter := 2 |}.

Definition two_bids_in_order : ExchangeSimulator :=
  {| buyOrders := [ mkOrder 0 true (Double.of_Z 100) 10;
                    mkOrder 1 true (Double.of_Z 100) 10 ];
     sellOrders := [];
     orderIdCounter := 2 |}.

Definition sixteen_bids_at_100 : list Request :=
  repeat (mkRequest true (Double.of_Z 100) 10) 16.

Definition sixteen_bids_outputs : list (Z * list Trade) :=
  map (fun i => (Z.of_nat i, [])) (seq 0 16).

Definition sixteen_bids_book : ExchangeSimulator :=
  {| buyOrders :=
       map (fun i => mkOrder (Z.of_nat i) true (Double.of_Z 100) 10) (seq 0 16);
     sellOrders := [];
     orderIdCounter := 16 |}.

Definition seventeen_bids_at_100 : list Request :=
  repeat (mkRequest true (Double.of_Z 100) 10) 17.

Definition ids_below_counter (s : ExchangeSimulator) : Prop :=
  Forall (fun o => id o < orderIdCounter s) (buyOrders s) /\
  Forall (fun o => id o < orderIdCounter s) (sellOrders s).

(** The invariant behind time priority. *)
Definition priority_inv (s : ExchangeSimulator) : Prop :=
  book_valid s /\ ids_below_counter s /\
  time_priority (buyOrders s) /\ time_priority (sellOrders s).

(** Every call of the sequence sorts at most [n] orders: it finds fewer than
    [n] orders on the side of its order. *)
Fixpoint sorts_at_most (n : nat) (S : StdSort) (s : ExchangeSimulator)
    (reqs : list Request) : bool :=
  match reqs with
  | [] => true
  | r :: reqs' =>
      (length (own_side (req_isBuy r) s) <? n)%nat &&
      match submit S s r with
      | Some p => sorts_at_most n S (placed_book p) reqs'
      | None => true
      end
  end.

(** ** The order of the values that are not NaN *)

Module DoubleFacts.
Import Double.

Lemma lex_compare_spec k1 k2 :
  CompareSpec (lex_eq k1 k2) (lex_lt k1 k2) (lex_lt k2 k1)
              (lex_compare k1 k2).
Proof.
  destruct k1 as [[a1 b1] c1], k2 as [[a2 b2] c2]; cbn.
  destruct (Z.compare_spec a1 a2); try (constructor; lia).
  destruct (Z.compare_spec b1 b2); try (constructor; lia).
  destruct (Z.compare_spec c1 c2); constructor; lia.
Qed.

Lemma compare_key x y :
  is_nan x = false -> is_nan y = false ->
  SFcompare x y = Some (lex_compare (key x) (key y)).
Proof.
  destruct x as [sx|sx| |sx mx ex], y as [sy|sy| |sy my ey];
    cbn [is_nan]; try discriminate; intros _ _;
    try (destruct sx; try destruct sy; reflexivity).
  destruct sx, sy; try reflexivity; cbn [SFcompare key lex_compare].
  change (-1 ?= -1) with Eq; cbn match.
  rewrite Z.compare_opp, (Z.compare_antisym ex ey).
  destruct (ex ?= ey); reflexivity.
Qed.

Lemma gtb_key x y :
  is_nan x = false -> is_nan y = false ->
  (gtb x y = true <-> lex_lt (key y) (key x)).
Proof.
  intros Hx Hy. unfold gtb. rewrite (compare_key x y Hx Hy).
  destruct (lex_compare_spec (key x) (key y)) as [H|H|H];
    destruct (key x) as [[a1 b1] c1], (key y) as [[a2 b2] c2];
    cbn in *; split; intros; try discriminate; try reflexivity; lia.
Qed.

Lemma ltb_key x y :
  is_nan x = false -> is_nan y = false ->
  (ltb x y = true <-> lex_lt (key x) (key y)).
Proof.
  intros Hx Hy. unfold ltb, SFltb. rewrite (compare_key x y Hx Hy).
  destruct (lex_compare_spec (key x) (key y)) as [H|H|H];
    destruct (key x) as [[a1 b1] c1], (key y) as [[a2 b2] c2];
    cbn in *; split; intros; try discriminate; try reflexivity; lia.
Qed.

Lemma geb_key x y :
  is_nan x = false -> is_nan y = false ->
  (geb x y = true <-> ~ lex_lt (key x) (key y)).
Proof.
  intros Hx Hy. unfold geb. rewrite (compare_key x y Hx Hy).
  destruct (lex_compare_spec (key x) (key y)) as [H|H|H];
    destruct (key x) as [[a1 b1] c1], (key y) as [[a2 b2] c2];
    cbn in *; split; intros; try discriminate; try reflexivity; lia.
Qed.

Lemma eqb_key x y :
  is_nan x = false -> is_nan y = false ->
  (eqb x y = true <-> lex_eq (key x) (key y)).
Proof.
  intros Hx Hy. unfold eqb, SFeqb. rewrite (compare_key x y Hx Hy).
  destruct (lex_compare_spec (key x) (key y)) as [H|H|H];
    destruct (key x) as [[a1 b1] c1], (key y) as [[a2 b2] c2];
    cbn in *; split; intros; try discriminate; try reflexivity; lia.
Qed.

(** A NaN compares false with everything. *)
Lemma gtb_nan_l x y : is_nan x = true -> gtb x y = false.
Proof. destruct x; try discriminate. reflexivity. Qed.

Lemma gtb_nan_r x y : is_nan y = true -> gtb x y = false.
Proof. destruct y; try discriminate. destruct x; reflexivity. Qed.

(** [x > 0] excludes the NaN. *)
Lemma gtb_zero_not_nan x : gtb x zero = true -> is_nan x = false.
Proof. destruct x; try reflexivity. discriminate. Qed.

Lemma gtb_false_key x y :
  is_nan x = false -> is_nan y = false ->
  (gtb x y = false <-> ~ lex_lt (key y) (key x)).
Proof.
  intros Hx Hy. rewrite <- (gtb_key x y Hx Hy). symmetry. apply not_true_iff_false.
Qed.

Lemma ltb_false_key x y :
  is_nan x = false -> is_nan y = false ->
  (ltb x y = false <-> ~ lex_lt (key x) (key y)).
Proof.
  intros Hx Hy. rewrite <- (ltb_key x y Hx Hy). symmetry. apply not_true_iff_false.
Qed.

(** [!(x >= y)] is [x < y] when no NaN is involved. *)
Lemma geb_false_ltb x y :
  is_nan x = false -> is_nan y = false -> geb x y = false -> ltb x y = true.
Proof.
  intros Hx Hy H. apply not_true_iff_false in H.
  rewrite (geb_key x y Hx Hy) in H. apply (ltb_key x y Hx Hy).
  destruct (key x) as [[a1 b1] c1], (key y) as [[a2 b2] c2]; cbn in *; lia.
Qed.

(** [x < y] makes [x >= y] false, NaN or not. *)
Lemma ltb_geb_false x y : ltb x y = true -> geb x y = false.
Proof.
  unfold ltb, SFltb, geb. destruct (SFcompare x y) as [[]|]; congruence.
Qed.

Lemma ltb_not_nan x y :
  ltb x y = true -> is_nan x = false /\ is_nan y = false.
Proof.
  unfold ltb, SFltb. destruct x, y; cbn; try discriminate; auto.
Qed.

Lemma leb_key x y :
  is_nan x = false -> is_nan y = false ->
  (leb x y = true <-> ~ lex_lt (key y) (key x)).
Proof.
  intros Hx Hy. unfold leb, SFleb. rewrite (compare_key x y Hx Hy).
  destruct (lex_compare_spec (key x) (key y)) as [H|H|H];
    destruct (key x) as [[a1 b1] c1], (key y) as [[a2 b2] c2];
    cbn in *; split; intros; try discriminate; try reflexivity; lia.
Qed.

Lemma gtb_ltb x y : gtb x y = ltb y x.
Proof.
  destruct (is_nan x) eqn:Hx.
  { destruct x; try discriminate. destruct y; reflexivity. }
  destruct (is_nan y) eqn:Hy.
  { destruct y; try discriminate. destruct x; reflexivity. }
  apply eq_true_iff_eq. rewrite (gtb_key x y Hx Hy), (ltb_key y x Hy Hx).
  reflexivity.
Qed.

End DoubleFacts.

(** ** Two implementations of the [std::sort] contract *)

Section InsertionSort.
Context {A : Type} (comp : A -> A -> bool) (P : A -> Prop).
Hypothesis comp_swo : strict_weak_on comp P.

Lemma swo_irrefl x : P x -> comp x x = false.
Proof. apply comp_swo. Qed.

Lemma swo_trans x y z :
  P x -> P y -> P z -> comp x y = true -> comp y z = true -> comp x z = true.
Proof. apply comp_swo. Qed.

Lemma swo_asym x y : P x -> P y -> comp x y = true -> comp y x = false.
Proof.
  intros Hx Hy Hxy. destruct (comp y x) eqn:Hyx; [|reflexivity].
  rewrite <- (swo_irrefl x Hx). symmetry. now apply (swo_trans x y x).
Qed.

Lemma equiv_sym (x y : A) : equiv comp x y = equiv comp y x.
Proof. unfold equiv. apply andb_comm. Qed.

Lemma equiv_true x y :
  equiv comp x y = true <-> comp x y = false /\ comp y x = false.
Proof.
  unfold equiv. rewrite andb_true_iff, !negb_true_iff. reflexivity.
Qed.

Lemma swo_equiv_trans x y z :
  P x -> P y -> P z ->
  equiv comp x y = true -> equiv comp y z = true -> equiv comp x z = true.
Proof. apply comp_swo. Qed.

(** Negative transitivity: "not before" is transitive. *)
Lemma swo_not_before_trans x y z :
  P x -> P y -> P z ->
  comp y x = false -> comp z y = false -> comp z x = false.
Proof.
  intros Hx Hy Hz Hyx Hzy.
  destruct (comp z x) eqn:Hzx; [exfalso|reflexivity].
  destruct (comp x y) eqn:Hxy.
  { rewrite (swo_trans z x y Hz Hx Hy Hzx Hxy) in Hzy. discriminate. }
  destruct (comp y z) eqn:Hyz.
  { rewrite (swo_trans y z x Hy Hz Hx Hyz Hzx) in Hyx. discriminate. }
  assert (E : equiv comp z x = true).
  { apply (swo_equiv_trans z y x Hz Hy Hx); apply equiv_true; auto. }
  apply equiv_true in E. destruct E as [E _]. congruence.
Qed.

Variable pass : A -> A -> bool.
Hypothesis pass_true : forall x y, P x -> P y -> pass x y = true -> comp x y = false.
Hypothesis pass_false : forall x y, P x -> P y -> pass x y = false -> comp y x = false.

Lemma insert_by_sorted x l :
  P x -> Forall P l -> sorted_by comp l -> sorted_by comp (insert_by pass x l).
Proof.
  intros Hx Hl Hs. induction Hs as [|y l Hs IH Hy]; cbn.
  - constructor; constructor.
  - inversion Hl as [|? ? Py Pl]; subst.
    destruct (pass x y) eqn:E.
    + constructor; [now apply IH|].
      assert (Hin : forall z, In z (insert_by pass x l) -> z = x \/ In z l).
      { clear. induction l as [|w l IHl]; cbn; intros z Hz.
        - destruct Hz as [<-|[]]; auto.
        - destruct (pass x w); cbn in Hz.
          + destruct Hz as [<-|Hz]; auto. destruct (IHl _ Hz); auto.
          + destruct Hz as [<-|[<-|Hz]]; auto. }
      apply Forall_forall. intros z Hz. destruct (Hin z Hz) as [->|Hz'].
      * now apply pass_true.
      * rewrite Forall_forall in Hy. now apply Hy.
    + constructor; [now constructor|].
      constructor; [now apply pass_false|].
      rewrite Forall_forall in Hy, Pl |- *. intros z Hz.
      apply (swo_not_before_trans x y z); auto.
Qed.

Lemma insertion_sort_by_sorted l :
  Forall P l -> sorted_by comp (insertion_sort_by pass l).
Proof.
  induction 1 as [|x l Hx Hl IH]; cbn.
  - constructor.
  - apply insert_by_sorted; auto.
    clear IH Hx. induction Hl as [|y l Hy Hl IH]; cbn; [constructor|].
    assert (G : forall z k, P z -> Forall P k -> Forall P (insert_by pass z k)).
    { clear. intros z k Hz Hk. induction Hk as [|w k Hw Hk IHk]; cbn.
      - now constructor.
      - destruct (pass z w); repeat constructor; auto. }
    now apply G.
Qed.

End InsertionSort.

Lemma insert_by_permutation {A} (pass : A -> A -> bool) x l :
  Permutation (x :: l) (insert_by pass x l).
Proof.
  induction l as [|y l IH]; cbn; [reflexivity|].
  destruct (pass x y); [|reflexivity].
  rewrite perm_swap. now constructor.
Qed.

Lemma insertion_sort_by_permutation {A} (pass : A -> A -> bool) l :
  Permutation l (insertion_sort_by pass l).
Proof.
  induction l as [|x l IH]; cbn; [reflexivity|].
  rewrite <- insert_by_permutation. now constructor.
Qed.

(** The insertion that stops behind the equivalent elements keeps them in
    their input order. *)
Lemma insert_by_stable {A} (comp : A -> A -> bool) (P : A -> Prop) z x l :
  strict_weak_on comp P -> P z -> P x -> Forall P l ->
  filter (equiv comp z) (insert_by (fun u v => comp v u) x l)
  = filter (equiv comp z) (x :: l).
Proof.
  intros Hswo Hz Hx Hl. induction Hl as [|y l Hy Hl IH]; [reflexivity|].
  cbn [insert_by]. destruct (comp y x) eqn:E; [|reflexivity].
  cbn [filter] in *. rewrite IH.
  destruct (equiv comp z x) eqn:Ex, (equiv comp z y) eqn:Ey; try reflexivity.
  exfalso. rewrite (equiv_sym comp z y) in Ey.
  pose proof (swo_equiv_trans comp P Hswo y z x Hy Hz Hx Ey Ex) as F.
  apply equiv_true in F. destruct F as [F _]. congruence.
Qed.

Lemma insertion_sort_by_stable {A} (comp : A -> A -> bool) (P : A -> Prop) z l :
  strict_weak_on comp P -> P z -> Forall P l ->
  filter (equiv comp z) (insertion_sort_by (fun u v => comp v u) l)
  = filter (equiv comp z) l.
Proof.
  intros Hswo Hz Hl. induction Hl as [|x l Hx Hl IH]; [reflexivity|].
  cbn [insertion_sort_by fold_right].
  fold (insertion_sort_by (fun u v => comp v u) l).
  rewrite (insert_by_stable comp P); auto.
  - cbn [filter]. now rewrite IH.
  - eapply Permutation_Forall; [apply insertion_sort_by_permutation|exact Hl].
Qed.

Lemma Forall_In_self {A} (l : list A) : Forall (fun x => In x l) l.
Proof. apply Forall_forall. auto. Qed.

Lemma stable_sort_sorted A (comp : A -> A -> bool) (l : list A) :
  strict_weak_on comp (fun x => In x l) ->
  sorted_by comp (insertion_sort_by (fun u v => comp v u) l).
Proof.
  intros H. apply (insertion_sort_by_sorted comp (fun x => In x l) H).
  - intros x y Hx Hy E. now apply (swo_asym comp _ H y x).
  - auto.
  - apply Forall_In_self.
Qed.

Lemma unstable_sort_sorted A (comp : A -> A -> bool) (l : list A) :
  strict_weak_on comp (fun x => In x l) ->
  sorted_by comp (insertion_sort_by (fun u v => negb (comp u v)) l).
Proof.
  intros H. apply (insertion_sort_by_sorted comp (fun x => In x l) H).
  - intros x y _ _ E. now apply negb_true_iff in E.
  - intros x y Hx Hy E. apply negb_false_iff in E.
    now apply (swo_asym comp _ H x y).
  - apply Forall_In_self.
Qed.

(** Insertion sort that lets an element move left only past the elements it
    is strictly before: equivalent elements keep their order. *)
Definition stable_insertion_sort : StdSort :=
  {| std_sort := fun A comp => insertion_sort_by (fun u v => comp v u);
     std_sort_permutation := fun A comp l _ =>
       insertion_sort_by_permutation (fun u v => comp v u) l;
     std_sort_sorted := stable_sort_sorted |}.

(** Insertion sort that lets an element move left past everything it is not
    strictly after: equivalent elements end in reverse order. *)
Definition unstable_insertion_sort : StdSort :=
  {| std_sort := fun A comp => insertion_sort_by (fun u v => negb (comp u v));
     std_sort_permutation := fun A comp l _ =>
       insertion_sort_by_permutation (fun u v => negb (comp u v)) l;
     std_sort_sorted := unstable_sort_sorted |}.

(** ** The GNU [std::sort] meets the contract *)


Module LibstdcxxFacts.
Import Libstdcxx.
Local Open Scope nat_scope.

Section Ranges.
Context {A : Type} (d : A).

Lemma length_put (v : list A) i x : length (put v i x) = length v.
Proof.
  revert i. induction v as [|y v IH]; intros [|i]; cbn; auto.
Qed.

Lemma get_put_same (v : list A) i x : i < length v -> get d (put v i x) i = x.
Proof.
  revert i. induction v as [|y v IH]; intros [|i]; cbn; intros H;
    try lia; auto.
  apply IH. lia.
Qed.

Lemma get_put_other (v : list A) i j x :
  i <> j -> get d (put v i x) j = get d v j.
Proof.
  revert i j. induction v as [|y v IH]; intros [|i] [|j] H; cbn;
    try reflexivity; try congruence.
  apply IH. congruence.
Qed.

Lemma put_put (v : list A) i x y : put (put v i x) i y = put v i y.
Proof.
  revert i. induction v as [|z v IH]; intros [|i]; cbn; auto.
  now rewrite IH.
Qed.

Lemma put_get (v : list A) i : put v i (get d v i) = v.
Proof.
  revert i. induction v as [|z v IH]; intros [|i]; cbn; auto.
  f_equal. apply IH.
Qed.

Lemma get_In (v : list A) i : i < length v -> In (get d v i) v.
Proof. apply nth_In. Qed.

(** Writing [x] at a position of the range replaces the element there. *)
Lemma put_perm (v : list A) i x :
  i < length v -> Permutation (get d v i :: put v i x) (x :: v).
Proof.
  revert i. induction v as [|y v IH]; intros [|i]; cbn; intros H; try lia.
  - apply perm_swap.
  - rewrite perm_swap. rewrite (IH i) by lia. apply perm_swap.
Qed.

(** Moving [v[j]] to [v[i]] and writing [x] at [v[j]] permutes the range
    that has [x] at [v[i]]. *)
Lemma move_perm (v : list A) i j x :
  i < length v -> j < length v ->
  Permutation (put (put v i (get d v j)) j x) (put v i x).
Proof.
  intros Hi Hj. destruct (Nat.eq_dec i j) as [->|Hij].
  { now rewrite put_put. }
  set (w := put v i (get d v j)).
  assert (H1 : Permutation (get d w j :: put w j x) (x :: w)).
  { apply put_perm. unfold w. now rewrite length_put. }
  assert (E : get d w j = get d v j) by (apply get_put_other; exact Hij).
  rewrite E in H1.
  assert (H2 : Permutation (get d v i :: w) (get d v j :: v))
    by (apply put_perm; exact Hi).
  assert (H3 : Permutation (get d v i :: put v i x) (x :: v))
    by (apply put_perm; exact Hi).
  apply (Permutation_cons_inv (a := get d v j)).
  apply (Permutation_cons_inv (a := get d v i)).
  transitivity (get d v i :: x :: w); [now constructor|].
  transitivity (x :: get d v i :: w); [apply perm_swap|].
  transitivity (x :: get d v j :: v); [now constructor|].
  transitivity (get d v j :: x :: v); [apply perm_swap|].
  transitivity (get d v j :: get d v i :: put v i x);
    [constructor; now symmetry|].
  apply perm_swap.
Qed.

Lemma iter_swap_perm (v : list A) i j :
  i < length v -> j < length v -> Permutation (iter_swap d v i j) v.
Proof.
  intros Hi Hj. unfold iter_swap.
  rewrite (move_perm v i j (get d v i) Hi Hj). now rewrite put_get.
Qed.

Lemma length_iter_swap (v : list A) i j :
  length (iter_swap d v i j) = length v.
Proof. unfold iter_swap. now rewrite !length_put. Qed.

Lemma get_iter_swap_l (v : list A) i j :
  i < length v -> j < length v -> get d (iter_swap d v i j) i = get d v j.
Proof.
  intros Hi Hj. unfold iter_swap. destruct (Nat.eq_dec i j) as [->|Hij].
  - rewrite get_put_same; [|now rewrite length_put].
    reflexivity.
  - rewrite get_put_other by congruence. now apply get_put_same.
Qed.

Lemma get_iter_swap_r (v : list A) i j :
  j < length v -> get d (iter_swap d v i j) j = get d v i.
Proof.
  intros Hj. unfold iter_swap. apply get_put_same. now rewrite length_put.
Qed.

Lemma get_iter_swap_other (v : list A) i j k :
  k <> i -> k <> j -> get d (iter_swap d v i j) k = get d v k.
Proof.
  intros Hi Hj. unfold iter_swap.
  rewrite !get_put_other by congruence. reflexivity.
Qed.

End Ranges.

Ltac halves n :=
  pose proof (Nat.div_mod_eq n 2);
  pose proof (Nat.mod_upper_bound n 2 ltac:(discriminate)).

(** *** The heap sort permutes the range *)

Section Heap.
Context {A : Type} (comp : A -> A -> bool) (d : A).

Lemma push_heap_perm fuel (v : list A) first holeIndex topIndex value :
  first + holeIndex < length v ->
  Permutation (push_heap comp d fuel v first holeIndex topIndex value)
              (put v (first + holeIndex) value).
Proof.
  revert v holeIndex.
  induction fuel as [|fuel IH]; intros v hole H; cbn [push_heap];
    [reflexivity|].
  cbv zeta.
  destruct ((topIndex <? hole) && comp (get d v (first + (hole - 1) / 2)) value);
    [|reflexivity].
  halves (hole - 1).
  rewrite IH by (rewrite length_put; lia).
  apply move_perm; lia.
Qed.

Lemma sift_down_spec fuel (v : list A) first holeIndex len secondChild value
    v1 hole1 child1 :
  first + len <= length v -> holeIndex < len ->
  sift_down comp d fuel v first holeIndex len secondChild = (v1, hole1, child1) ->
  Permutation (put v1 (first + hole1) value) (put v (first + holeIndex) value)
  /\ hole1 < len /\ length v1 = length v.
Proof.
  revert v holeIndex secondChild.
  induction fuel as [|fuel IH]; intros v hole child Hlen Hhole E;
    cbn [sift_down] in E.
  { injection E as <- <- <-. auto. }
  destruct (child <? (len - 1) / 2) eqn:C.
  2:{ injection E as <- <- <-. auto. }
  cbv zeta in E. apply Nat.ltb_lt in C. halves (len - 1).
  match type of E with
  | sift_down _ _ _ (put _ _ (get _ _ (first + ?c))) _ _ _ _ = _ =>
      set (child2 := c) in *
  end.
  assert (Hc : child2 < len).
  { unfold child2. destruct (comp _ _); lia. }
  apply IH in E; [|rewrite length_put; lia|exact Hc].
  destruct E as (E1 & E2 & E3). rewrite length_put in E3.
  split; [|auto]. rewrite E1. apply move_perm; lia.
Qed.

Lemma adjust_heap_perm (v : list A) first holeIndex len value :
  first + len <= length v -> holeIndex < len ->
  Permutation (adjust_heap comp d v first holeIndex len value)
              (put v (first + holeIndex) value).
Proof.
  intros Hlen Hhole. unfold adjust_heap.
  destruct (sift_down comp d len v first holeIndex len holeIndex)
    as [[v1 hole1] child] eqn:E.
  apply (sift_down_spec _ _ _ _ _ _ value) in E; [|exact Hlen|exact Hhole].
  destruct E as (E1 & E2 & E3).
  destruct (Nat.even len && (child =? (len - 2) / 2)) eqn:C.
  - apply andb_true_iff in C. destruct C as [Ce Cc].
    apply Nat.eqb_eq in Cc. apply Nat.even_spec in Ce. destruct Ce as [m Hm].
    halves (len - 2).
    rewrite push_heap_perm by (rewrite length_put; lia).
    rewrite <- E1. apply move_perm; lia.
  - rewrite push_heap_perm by lia. exact E1.
Qed.

Lemma pop_heap_perm (v : list A) first last result :
  first < last -> last <= length v -> result < length v ->
  Permutation (pop_heap comp d v first last result) v.
Proof.
  intros H1 H2 H3. unfold pop_heap.
  rewrite adjust_heap_perm by (rewrite ?length_put; lia).
  rewrite Nat.add_0_r.
  rewrite (move_perm d v result first (get d v result)) by lia.
  now rewrite put_get.
Qed.

Lemma make_heap_from_perm (v : list A) first len parent :
  first + len <= length v -> parent < len ->
  Permutation (make_heap_from comp d v first len parent) v.
Proof.
  revert v. induction parent as [|parent IH]; intros v H1 H2;
    cbn [make_heap_from]; cbv zeta.
  - rewrite adjust_heap_perm by lia. now rewrite put_get.
  - assert (E : Permutation
                  (adjust_heap comp d v first (S parent) len
                     (get d v (first + S parent))) v).
    { rewrite adjust_heap_perm by lia. now rewrite put_get. }
    rewrite IH; [exact E| |lia].
    rewrite (Permutation_length E). exact H1.
Qed.

Lemma make_heap_perm (v : list A) first last :
  last <= length v -> Permutation (make_heap comp d v first last) v.
Proof.
  intros H. unfold make_heap. destruct (last - first <? 2) eqn:E;
    [reflexivity|].
  apply Nat.ltb_ge in E. halves (last - first - 2).
  apply make_heap_from_perm; lia.
Qed.

Lemma sort_heap_perm fuel (v : list A) first last :
  last <= length v -> Permutation (sort_heap comp d fuel v first last) v.
Proof.
  revert v last. induction fuel as [|fuel IH]; intros v last H;
    cbn [sort_heap]; [reflexivity|].
  destruct (1 <? last - first) eqn:E; [|reflexivity].
  apply Nat.ltb_lt in E.
  assert (Q : Permutation (pop_heap comp d v first (last - 1) (last - 1)) v)
    by (apply pop_heap_perm; lia).
  rewrite IH; [exact Q|]. rewrite (Permutation_length Q). lia.
Qed.

Lemma heap_select_from_perm count (v : list A) first middle i :
  first < middle -> middle <= length v -> i + count <= length v ->
  Permutation (heap_select_from comp d count v first middle i) v.
Proof.
  revert v i. induction count as [|count IH]; intros v i H1 H2 H3;
    cbn [heap_select_from]; [reflexivity|].
  assert (Q : Permutation
                (if comp (get d v i) (get d v first)
                 then pop_heap comp d v first middle i else v) v).
  { destruct (comp _ _); [|reflexivity]. apply pop_heap_perm; lia. }
  rewrite IH; [exact Q|exact H1| |]; rewrite (Permutation_length Q); lia.
Qed.

Lemma partial_sort_perm (v : list A) first middle last :
  first < middle -> middle <= last -> last <= length v ->
  Permutation (partial_sort comp d v first middle last) v.
Proof.
  intros H1 H2 H3. unfold partial_sort, heap_select.
  assert (Q : Permutation (make_heap comp d v first middle) v)
    by (apply make_heap_perm; lia).
  assert (R : Permutation
                (heap_select_from comp d (last - middle)
                   (make_heap comp d v first middle) first middle middle) v).
  { rewrite heap_select_from_perm; [exact Q|exact H1| |];
      rewrite (Permutation_length Q); lia. }
  rewrite sort_heap_perm; [exact R|]. rewrite (Permutation_length R). lia.
Qed.

End Heap.

(** *** The quicksort phase permutes the range *)

Section Introsort.
Context {A : Type} (comp : A -> A -> bool) (d : A) (P : A -> Prop).
Hypothesis comp_swo : strict_weak_on comp P.

Lemma get_P (v : list A) i : Forall P v -> i < length v -> P (get d v i).
Proof.
  intros H Hi. rewrite Forall_forall in H. apply H. now apply get_In.
Qed.

(** With an element that is not before the pivot at [k], the scan stops at
    [k] at the latest. *)
Lemma scan_up_bound fuel (v : list A) pivot first k :
  first <= k -> k - first < fuel ->
  comp (get d v k) (get d v pivot) = false ->
  first <= scan_up comp d fuel v pivot first <= k /\
  comp (get d v (scan_up comp d fuel v pivot first)) (get d v pivot) = false.
Proof.
  revert first. induction fuel as [|fuel IH]; intros first Hk Hf Hs; [lia|].
  cbn [scan_up]. destruct (comp (get d v first) (get d v pivot)) eqn:E.
  - assert (first <> k) by (intros ->; congruence).
    destruct (IH (S first)) as [H1 H2]; try lia; auto. split; [lia|exact H2].
  - split; [lia|exact E].
Qed.

Lemma scan_down_le fuel (v : list A) pivot last :
  scan_down comp d fuel v pivot last <= last.
Proof.
  revert last. induction fuel as [|fuel IH]; intros last; cbn; [lia|].
  destruct (comp _ _); [|lia]. specialize (IH (pred last)). lia.
Qed.

Lemma unguarded_partition_spec fuel (v : list A) first last pivot last0 k :
  pivot < first -> last <= last0 -> last0 <= length v ->
  first <= k < last0 -> comp (get d v k) (get d v pivot) = false ->
  Permutation (snd (unguarded_partition comp d fuel v first last pivot)) v /\
  fst (unguarded_partition comp d fuel v first last pivot) < last0.
Proof.
  revert v first last k.
  induction fuel as [|fuel IH]; intros v first last k Hp Hl Hl0 Hk Hs.
  { cbn. split; [reflexivity|lia]. }
  cbn [unguarded_partition]. cbv zeta.
  destruct (scan_up_bound (length v) v pivot first k) as [Hf Hfs];
    [lia|lia|exact Hs|].
  set (f := scan_up comp d (length v) v pivot first) in *.
  pose proof (scan_down_le (length v) v pivot (pred last)) as Hd.
  set (l := scan_down comp d (length v) v pivot (pred last)) in *.
  destruct (f <? l) eqn:E.
  - apply Nat.ltb_lt in E.
    destruct (IH (iter_swap d v f l) (S f) l l) as [H1 H2].
    + lia.
    + lia.
    + rewrite length_iter_swap. lia.
    + lia.
    + rewrite get_iter_swap_r by lia.
      rewrite get_iter_swap_other by lia. exact Hfs.
    + split; [|exact H2]. rewrite H1. apply iter_swap_perm; lia.
  - cbn. split; [reflexivity|lia].
Qed.

(** The median of three goes to [result]; one of the other two is not
    before it. *)
Lemma move_median_spec (v : list A) result a b c :
  Forall P v -> a < b -> b < c -> c < length v ->
  exists p k,
    move_median_to_first comp d v result a b c = iter_swap d v result p /\
    a <= p <= c /\ a <= k <= c /\ k <> p /\
    comp (get d v k) (get d v p) = false.
Proof.
  intros Hv Hab Hbc Hc.
  assert (Pa := get_P v a Hv ltac:(lia)).
  assert (Pb := get_P v b Hv ltac:(lia)).
  assert (Pc := get_P v c Hv ltac:(lia)).
  unfold move_median_to_first.
  destruct (comp (get d v a) (get d v b)) eqn:Eab.
  - destruct (comp (get d v b) (get d v c)) eqn:Ebc.
    + exists b, c. repeat split; try lia.
      now apply (swo_asym comp P comp_swo).
    + destruct (comp (get d v a) (get d v c)) eqn:Eac.
      * exists c, b. repeat split; try lia. exact Ebc.
      * exists a, b. repeat split; try lia.
        now apply (swo_asym comp P comp_swo).
  - destruct (comp (get d v a) (get d v c)) eqn:Eac.
    + exists a, c. repeat split; try lia.
      now apply (swo_asym comp P comp_swo).
    + destruct (comp (get d v b) (get d v c)) eqn:Ebc.
      * exists c, a. repeat split; try lia. exact Eac.
      * exists b, a. repeat split; try lia. exact Eab.
Qed.

Lemma unguarded_partition_pivot_spec (v : list A) first last :
  Forall P v -> first + 16 < last -> last <= length v ->
  Permutation (snd (unguarded_partition_pivot comp d v first last)) v /\
  fst (unguarded_partition_pivot comp d v first last) < last.
Proof.
  intros Hv H16 Hlast. unfold unguarded_partition_pivot. cbv zeta.
  halves (last - first).
  destruct (move_median_spec v first (first + 1)
              (first + (last - first) / 2) (last - 1) Hv)
    as (p & k & E & Hp & Hk & Hkp & Hs); try lia.
  rewrite E. rewrite length_iter_swap.
  assert (Q : Permutation (iter_swap d v first p) v)
    by (apply iter_swap_perm; lia).
  destruct (unguarded_partition_spec (length v) (iter_swap d v first p)
              (first + 1) last first last k) as [H1 H2]; try lia.
  - rewrite length_iter_swap. lia.
  - rewrite get_iter_swap_other by lia.
    rewrite get_iter_swap_l by lia. exact Hs.
  - split; [|exact H2]. now rewrite H1.
Qed.

Lemma introsort_loop_perm depth_limit (v : list A) first last :
  Forall P v -> last <= length v ->
  Permutation (introsort_loop comp d depth_limit v first last) v.
Proof.
  revert v first last.
  induction depth_limit as [|depth IH]; intros v first last Hv Hlast;
    cbn [introsort_loop];
    destruct (last - first <=? 16) eqn:E; try reflexivity;
    apply Nat.leb_gt in E.
  - apply partial_sort_perm; lia.
  - destruct (unguarded_partition_pivot_spec v first last Hv) as [H1 H2];
      try lia.
    destruct (unguarded_partition_pivot comp d v first last) as [cut v1].
    cbn [fst snd] in H1, H2.
    assert (Q : Permutation (introsort_loop comp d depth v1 cut last) v).
    { rewrite IH; [exact H1| |].
      - eapply Permutation_Forall; [symmetry; exact H1|exact Hv].
      - rewrite (Permutation_length H1). exact Hlast. }
    rewrite IH; [exact Q| |].
    + eapply Permutation_Forall; [symmetry; exact Q|exact Hv].
    + rewrite (Permutation_length Q). lia.
Qed.

End Introsort.

(** *** The insertion sort that ends [std::sort] *)

Lemma StronglySorted_snoc {A : Type} (R : A -> A -> Prop) l x :
  StronglySorted R l -> Forall (fun a => R a x) l -> StronglySorted R (l ++ [x]).
Proof.
  induction 1 as [|y l Hs IH Hy]; intros Hx; cbn.
  - repeat constructor.
  - inversion Hx as [|? ? Hyx Hlx]; subst.
    constructor; [now apply IH|].
    apply Forall_app. split; [exact Hy|now constructor].
Qed.

Lemma StronglySorted_rev {A : Type} (R : A -> A -> Prop) l :
  StronglySorted R l -> StronglySorted (fun a b => R b a) (rev l).
Proof.
  induction 1 as [|y l Hs IH Hy]; cbn; [constructor|].
  apply StronglySorted_snoc; [exact IH|].
  apply Forall_rev. exact Hy.
Qed.

Lemma filter_none {A : Type} (f : A -> bool) l :
  (forall x, In x l -> f x = false) -> filter f l = [].
Proof.
  induction l as [|y l IH]; intros H; cbn; [reflexivity|].
  rewrite (H y) by (now left). apply IH. intros x Hx. apply H. now right.
Qed.

Lemma Forall_firstn_skipn {A : Type} (P : A -> Prop) n l :
  Forall P l -> Forall P (firstn n l) /\ Forall P (skipn n l).
Proof. intros H. apply Forall_app. now rewrite firstn_skipn. Qed.

Lemma swo_flip {A : Type} (comp : A -> A -> bool) (P : A -> Prop) :
  strict_weak_on comp P -> strict_weak_on (fun a b => comp b a) P.
Proof.
  intros (Hi & Ht & He). split; [exact Hi|split].
  - intros x y z Hx Hy Hz Hxy Hyz. now apply (Ht z y x).
  - intros x y z Hx Hy Hz Hxy Hyz.
    change (equiv comp z x = true).
    change (equiv comp y x = true) in Hxy.
    change (equiv comp z y = true) in Hyz.
    now apply (He z y x).
Qed.

Section Insertion.
Context {A : Type} (comp : A -> A -> bool) (d : A).

Lemma get_middle (pre : list A) x post n :
  n = length pre -> get d (pre ++ x :: post) n = x.
Proof. intros ->. apply nth_middle. Qed.

Lemma put_middle (pre : list A) x post n z :
  n = length pre -> put (pre ++ x :: post) n z = pre ++ z :: post.
Proof.
  intros ->. induction pre as [|y pre IH]; cbn; [reflexivity|].
  now rewrite IH.
Qed.

Lemma firstn_middle (pre post : list A) :
  firstn (length pre) (pre ++ post) = pre.
Proof.
  induction pre as [|y pre IH]; cbn; [now destruct post|]. now rewrite IH.
Qed.

Lemma skipn_middle (pre post : list A) :
  skipn (length pre) (pre ++ post) = post.
Proof. induction pre as [|y pre IH]; cbn; auto. Qed.

Lemma linear_insert_loop_spec (rp : list A) :
  forall y0 post fuel x, length rp <= fuel ->
    linear_insert_loop comp d fuel (rev rp ++ y0 :: post) x (length rp)
    = rev (insert_by comp x rp) ++ post.
Proof.
  induction rp as [|y rp IH]; intros y0 post fuel x Hf.
  { cbn. now destruct fuel. }
  cbn [length] in *. destruct fuel as [|fuel]; [lia|].
  cbn [linear_insert_loop rev insert_by].
  assert (G : get d ((rev rp ++ [y]) ++ y0 :: post) (length rp) = y).
  { rewrite <- app_assoc. apply get_middle. now rewrite length_rev. }
  rewrite G.
  rewrite (put_middle (rev rp ++ [y]) y0 post)
    by (rewrite length_app, length_rev; cbn; lia).
  rewrite (put_middle (rev rp ++ [y]) y0 post)
    by (rewrite length_app, length_rev; cbn; lia).
  destruct (comp x y).
  - rewrite <- app_assoc. cbn [app].
    rewrite IH by lia. cbn [rev]. now rewrite <- app_assoc.
  - cbn [rev]. now rewrite <- !app_assoc.
Qed.

Lemma unguarded_linear_insert_spec (pre : list A) x post :
  unguarded_linear_insert comp d (pre ++ x :: post) (length pre)
  = rev (insert_by comp x (rev pre)) ++ post.
Proof.
  unfold unguarded_linear_insert. rewrite get_middle by reflexivity.
  pose proof (linear_insert_loop_spec (rev pre) x post
                (length (pre ++ x :: post)) x) as H.
  rewrite rev_involutive, length_rev in H. apply H.
  rewrite length_app. lia.
Qed.

Lemma move_to_front_spec (pre : list A) x post :
  move_to_front d (pre ++ x :: post) (length pre) = x :: pre ++ post.
Proof.
  unfold move_to_front. rewrite get_middle by reflexivity.
  rewrite firstn_middle. f_equal. f_equal.
  change (S (length pre)) with (1 + length pre).
  rewrite <- skipn_skipn, skipn_middle. reflexivity.
Qed.

Lemma length_insert_step g (pre : list A) x :
  length (insert_step comp d g pre x) = S (length pre).
Proof.
  unfold insert_step. destruct (g && comp x (hd d pre)); [reflexivity|].
  rewrite length_rev.
  rewrite <- (Permutation_length (insert_by_permutation comp x (rev pre))).
  cbn. now rewrite length_rev.
Qed.

Lemma length_insert_steps g (post pre : list A) :
  length (fold_left (insert_step comp d g) post pre)
  = length pre + length post.
Proof.
  revert pre. induction post as [|x post IH]; intros pre; cbn; [lia|].
  rewrite IH, length_insert_step. lia.
Qed.

Lemma insertion_turn_spec (pre : list A) x post :
  pre <> [] ->
  (if comp (get d (pre ++ x :: post) (length pre)) (get d (pre ++ x :: post) 0)
   then move_to_front d (pre ++ x :: post) (length pre)
   else unguarded_linear_insert comp d (pre ++ x :: post) (length pre))
  = insert_step comp d true pre x ++ post.
Proof.
  intros Hne. rewrite get_middle by reflexivity.
  rewrite move_to_front_spec, unguarded_linear_insert_spec.
  unfold insert_step. cbn [andb].
  destruct pre as [|y pre]; [congruence|]. cbn [app get nth hd].
  now destruct (comp x y).
Qed.

Lemma insertion_sort_from_spec count :
  forall pre post : list A, pre <> [] -> count <= length post ->
    insertion_sort_from comp d count (pre ++ post) (length pre)
    = fold_left (insert_step comp d true) (firstn count post) pre
      ++ skipn count post.
Proof.
  induction count as [|count IH]; intros pre post Hne Hc; [reflexivity|].
  destruct post as [|x post]; [cbn in Hc; lia|].
  cbn [insertion_sort_from firstn skipn fold_left].
  rewrite insertion_turn_spec by exact Hne.
  rewrite <- (length_insert_step true pre x).
  apply IH.
  - intros E. apply (f_equal (@length A)) in E.
    rewrite length_insert_step in E. discriminate.
  - cbn in Hc. lia.
Qed.

Lemma unguarded_insertion_sort_from_spec count :
  forall pre post : list A, count <= length post ->
    unguarded_insertion_sort_from comp d count (pre ++ post) (length pre)
    = fold_left (insert_step comp d false) (firstn count post) pre
      ++ skipn count post.
Proof.
  induction count as [|count IH]; intros pre post Hc; [reflexivity|].
  destruct post as [|x post]; [cbn in Hc; lia|].
  cbn [unguarded_insertion_sort_from firstn skipn fold_left].
  rewrite unguarded_linear_insert_spec.
  change (rev (insert_by comp x (rev pre)))
    with (insert_step comp d false pre x).
  rewrite <- (length_insert_step false pre x).
  apply IH. cbn in Hc. lia.
Qed.

(** [__final_insertion_sort] inserts the elements one by one, from the
    left: the first 15 guarded, the others not. *)
Lemma final_insertion_sort_spec (x0 : A) rest :
  final_insertion_sort comp d (x0 :: rest)
  = fold_left (insert_step comp d false) (skipn 15 rest)
      (fold_left (insert_step comp d true) (firstn 15 rest) [x0]).
Proof.
  unfold final_insertion_sort. cbv zeta. cbn [length].
  destruct (16 <? S (length rest)) eqn:E.
  - apply Nat.ltb_lt in E.
    pose proof (insertion_sort_from_spec 15 [x0] rest
                  ltac:(discriminate) ltac:(lia)) as H.
    cbn [app length] in H. rewrite H. clear H.
    set (pre := fold_left (insert_step comp d true) (firstn 15 rest) [x0]).
    assert (Hpre : length pre = 16).
    { unfold pre. rewrite length_insert_steps, length_firstn.
      cbn [length]. lia. }
    pose proof (unguarded_insertion_sort_from_spec (S (length rest) - 16)
                  pre (skipn 15 rest)
                  ltac:(rewrite length_skipn; lia)) as H.
    rewrite Hpre in H. rewrite H. clear H.
    rewrite (firstn_all2 (skipn 15 rest))
      by (rewrite length_skipn; lia).
    rewrite (skipn_all2 (skipn 15 rest))
      by (rewrite length_skipn; lia).
    apply app_nil_r.
  - apply Nat.ltb_ge in E.
    pose proof (insertion_sort_from_spec (S (length rest) - 1) [x0] rest
                  ltac:(discriminate) ltac:(lia)) as H.
    cbn [app length] in H. rewrite H. clear H.
    rewrite !(firstn_all2 rest) by lia.
    rewrite !(skipn_all2 rest) by lia.
    cbn [fold_left]. apply app_nil_r.
Qed.

Lemma insert_step_perm g (pre : list A) x :
  Permutation (insert_step comp d g pre x) (x :: pre).
Proof.
  unfold insert_step. destruct (g && comp x (hd d pre)); [reflexivity|].
  rewrite <- Permutation_rev, <- insert_by_permutation.
  constructor. symmetry. apply Permutation_rev.
Qed.

Lemma insert_steps_perm g (post pre : list A) :
  Permutation (fold_left (insert_step comp d g) post pre) (pre ++ post).
Proof.
  revert pre. induction post as [|x post IH]; intros pre; cbn [fold_left].
  - now rewrite app_nil_r.
  - rewrite IH, insert_step_perm. apply Permutation_middle.
Qed.

Lemma final_insertion_sort_perm (v : list A) :
  Permutation (final_insertion_sort comp d v) v.
Proof.
  destruct v as [|x0 rest]; [reflexivity|].
  rewrite final_insertion_sort_spec.
  rewrite !insert_steps_perm. cbn [app]. constructor.
  now rewrite firstn_skipn.
Qed.

Context (P : A -> Prop).
Hypothesis comp_swo : strict_weak_on comp P.

Lemma before_first_before_all x y (pre : list A) :
  P x -> P y -> Forall P pre -> sorted_by comp (y :: pre) ->
  comp x y = true -> Forall (fun w => comp x w = true) (y :: pre).
Proof.
  intros Hx Hy Hpre Hs Hxy. constructor; [exact Hxy|].
  inversion Hs as [|? ? _ Hall]; subst.
  rewrite Forall_forall in *. intros w Hw.
  destruct (comp x w) eqn:E; [reflexivity|].
  rewrite (swo_not_before_trans comp P comp_swo y w x) in Hxy; auto.
Qed.

Lemma insert_step_sorted g (pre : list A) x :
  P x -> Forall P pre -> sorted_by comp pre ->
  sorted_by comp (insert_step comp d g pre x).
Proof.
  intros Hx Hpre Hs. unfold insert_step.
  destruct (g && comp x (hd d pre)) eqn:E.
  - apply andb_true_iff in E. destruct E as [_ E].
    destruct pre as [|y pre]; [repeat constructor|]. cbn [hd] in E.
    inversion Hpre as [|? ? Hy Hpre']; subst.
    constructor; [exact Hs|].
    pose proof (before_first_before_all x y pre Hx Hy Hpre' Hs E) as Hall.
    rewrite Forall_forall in *. intros w Hw.
    apply (swo_asym comp P comp_swo); auto.
  - apply (StronglySorted_rev (fun a b => comp a b = false)).
    apply (insert_by_sorted (fun a b => comp b a) P (swo_flip comp P comp_swo)).
    + intros u w Hu Hw Huw. now apply (swo_asym comp P comp_swo).
    + intros u w _ _ Huw. exact Huw.
    + exact Hx.
    + now apply Forall_rev.
    + apply (StronglySorted_rev (fun a b => comp b a = false)). exact Hs.
Qed.

Lemma insert_step_P g (pre : list A) x :
  P x -> Forall P pre -> Forall P (insert_step comp d g pre x).
Proof.
  intros Hx Hpre.
  eapply Permutation_Forall; [symmetry; apply insert_step_perm|].
  now constructor.
Qed.

Lemma insert_steps_sorted g (post pre : list A) :
  Forall P post -> Forall P pre -> sorted_by comp pre ->
  sorted_by comp (fold_left (insert_step comp d g) post pre) /\
  Forall P (fold_left (insert_step comp d g) post pre).
Proof.
  intros Hpost. revert pre.
  induction Hpost as [|x post Hx Hpost IH]; intros pre Hpre Hs;
    cbn [fold_left]; [auto|].
  apply IH; [now apply insert_step_P|now apply insert_step_sorted].
Qed.

Lemma final_insertion_sort_sorted (v : list A) :
  Forall P v -> sorted_by comp (final_insertion_sort comp d v).
Proof.
  intros Hv. destruct v as [|x0 rest]; [constructor|].
  rewrite final_insertion_sort_spec.
  inversion Hv as [|? ? H0 Hrest]; subst.
  destruct (Forall_firstn_skipn P 15 rest Hrest) as [H1 H2].
  destruct (insert_steps_sorted true (firstn 15 rest) [x0]) as [S1 P1];
    [exact H1|now constructor|repeat constructor|].
  now apply insert_steps_sorted.
Qed.

(** Equivalent elements stay in the order they have in the range. *)
Lemma insert_step_stable g (pre : list A) x z :
  P z -> P x -> Forall P pre -> sorted_by comp pre ->
  filter (equiv comp z) (insert_step comp d g pre x)
  = filter (equiv comp z) (pre ++ [x]).
Proof.
  intros Hz Hx Hpre Hs. unfold insert_step.
  destruct (g && comp x (hd d pre)) eqn:E.
  - apply andb_true_iff in E. destruct E as [_ E].
    destruct pre as [|y pre]; [reflexivity|]. cbn [hd] in E.
    inversion Hpre as [|? ? Hy Hpre']; subst.
    pose proof (before_first_before_all x y pre Hx Hy Hpre' Hs E) as Hall.
    change (x :: y :: pre) with ([x] ++ y :: pre). rewrite !filter_app.
    destruct (equiv comp z x) eqn:Ex;
      [|cbn [filter]; rewrite Ex; now rewrite app_nil_r].
    rewrite (filter_none (equiv comp z) (y :: pre));
      [now rewrite app_nil_r|].
    intros w Hw. destruct (equiv comp z w) eqn:Ew; [exfalso|reflexivity].
    rewrite Forall_forall in Hall, Hpre. specialize (Hall w Hw).
    assert (Hpw : P w) by (apply Hpre; exact Hw).
    rewrite (equiv_sym comp z x) in Ex.
    pose proof (swo_equiv_trans comp P comp_swo x z w Hx Hz Hpw Ex Ew) as F.
    apply equiv_true in F. destruct F as [F _]. congruence.
  - rewrite filter_rev.
    rewrite (filter_ext (equiv comp z) (equiv (fun a b => comp b a) z))
      by (intros a; apply andb_comm).
    pose proof (insert_by_stable (fun a b => comp b a) P z x (rev pre)
                  (swo_flip comp P comp_swo) Hz Hx (Forall_rev Hpre)) as H.
    change (filter (equiv (fun a b => comp b a) z)
              (insert_by comp x (rev pre))
            = filter (equiv (fun a b => comp b a) z) (x :: rev pre)) in H.
    rewrite H.
    rewrite <- filter_rev. cbn [rev]. rewrite rev_involutive.
    apply filter_ext. intros a. apply andb_comm.
Qed.

Lemma insert_steps_stable g (post pre : list A) z :
  P z -> Forall P post -> Forall P pre -> sorted_by comp pre ->
  filter (equiv comp z) (fold_left (insert_step comp d g) post pre)
  = filter (equiv comp z) (pre ++ post).
Proof.
  intros Hz Hpost. revert pre.
  induction Hpost as [|x post Hx Hpost IH]; intros pre Hpre Hs;
    cbn [fold_left]; [now rewrite app_nil_r|].
  rewrite IH; [|now apply insert_step_P|now apply insert_step_sorted].
  rewrite !filter_app. rewrite insert_step_stable by assumption.
  rewrite filter_app. cbn [filter]. rewrite <- app_assoc. f_equal.
  now destruct (equiv comp z x).
Qed.

Lemma final_insertion_sort_stable (v : list A) z :
  P z -> Forall P v ->
  filter (equiv comp z) (final_insertion_sort comp d v)
  = filter (equiv comp z) v.
Proof.
  intros Hz Hv. destruct v as [|x0 rest]; [reflexivity|].
  rewrite final_insertion_sort_spec.
  inversion Hv as [|? ? H0 Hrest]; subst.
  destruct (Forall_firstn_skipn P 15 rest Hrest) as [H1 H2].
  destruct (insert_steps_sorted true (firstn 15 rest) [x0]) as [S1 P1];
    [exact H1|now constructor|repeat constructor|].
  rewrite insert_steps_stable by assumption.
  rewrite filter_app.
  rewrite insert_steps_stable;
    [|exact Hz|exact H1|now constructor|repeat constructor].
  rewrite <- filter_app, <- app_assoc, firstn_skipn. reflexivity.
Qed.

End Insertion.

(** *** [std::sort] *)

Lemma sort_permutation A (comp : A -> A -> bool) (l : list A) :
  strict_weak_on comp (fun x => In x l) -> Permutation l (sort comp l).
Proof.
  intros W. unfold sort. destruct l as [|d l']; [constructor|].
  unfold gnu_sort. set (l := d :: l') in *.
  symmetry. rewrite final_insertion_sort_perm.
  apply (introsort_loop_perm comp d _ W); [apply Forall_In_self|lia].
Qed.

Lemma sort_sorted A (comp : A -> A -> bool) (l : list A) :
  strict_weak_on comp (fun x => In x l) -> sorted_by comp (sort comp l).
Proof.
  intros W. unfold sort. destruct l as [|d l']; [constructor|].
  unfold gnu_sort. set (l := d :: l') in *.
  apply (final_insertion_sort_sorted comp d _ W).
  eapply Permutation_Forall; [|apply Forall_In_self].
  symmetry.
  apply (introsort_loop_perm comp d _ W); [apply Forall_In_self|lia].
Qed.

(** A range of at most 16 elements goes to the insertion sort as it is:
    equivalent elements keep their order. *)
Lemma sort_stable_16 A (comp : A -> A -> bool) (l : list A) (z : A) :
  length l <= 16 ->
  strict_weak_on comp (fun x => In x l \/ x = z) ->
  filter (equiv comp z) (sort comp l) = filter (equiv comp z) l.
Proof.
  intros Hlen W. unfold sort. destruct l as [|d l']; [reflexivity|].
  unfold gnu_sort. set (l := d :: l') in *.
  assert (E : introsort_loop comp d (Nat.log2 (length l) * 2) l 0 (length l) = l).
  { destruct (Nat.log2 (length l) * 2); cbn [introsort_loop];
      rewrite Nat.sub_0_r;
      now rewrite (proj2 (Nat.leb_le (length l) 16) Hlen). }
  rewrite E.
  apply (final_insertion_sort_stable comp d _ W); [now right|].
  apply Forall_forall. intros x Hx. now left.
Qed.

End LibstdcxxFacts.

(** [std::sort] as the GNU C++ library implements it. *)
Definition libstdcxx_sort : StdSort :=
  {| std_sort := @Libstdcxx.sort;
     std_sort_permutation := LibstdcxxFacts.sort_permutation;
     std_sort_sorted := LibstdcxxFacts.sort_sorted |}.

(** ** The comparators of [placeOrder] are strict weak orderings *)

Lemma strict_weak_on_weaken {A} (comp : A -> A -> bool) (P Q : A -> Prop) :
  (forall x, Q x -> P x) -> strict_weak_on comp P -> strict_weak_on comp Q.
Proof.
  intros HQP (Hi & Ht & He). repeat split.
  - intros x Hx. apply Hi; auto.
  - intros x y z Hx Hy Hz. apply Ht; auto.
  - intros x y z Hx Hy Hz. apply He; auto.
Qed.

Ltac by_keys :=
  repeat match goal with
  | |- context [Double.key ?x] =>
      let a := fresh "a" in let b := fresh "b" in let c := fresh "c" in
      destruct (Double.key x) as [[a b] c]
  | H : context [Double.key ?x] |- _ =>
      let a := fresh "a" in let b := fresh "b" in let c := fresh "c" in
      destruct (Double.key x) as [[a b] c]
  end;
  cbn [Double.lex_lt Double.lex_eq] in *; lia.

Lemma price_greater_swo : strict_weak_on price_greater not_nan.
Proof.
  unfold not_nan, price_greater. repeat split.
  - intros x Hx. apply DoubleFacts.gtb_false_key; auto. by_keys.
  - intros x y z Hx Hy Hz.
    rewrite !DoubleFacts.gtb_key by assumption. by_keys.
  - intros x y z Hx Hy Hz. unfold equiv.
    rewrite !andb_true_iff, !negb_true_iff.
    rewrite !DoubleFacts.gtb_false_key by assumption. by_keys.
Qed.

Lemma price_less_swo : strict_weak_on price_less not_nan.
Proof.
  unfold not_nan, price_less. repeat split.
  - intros x Hx. apply DoubleFacts.ltb_false_key; auto. by_keys.
  - intros x y z Hx Hy Hz.
    rewrite !DoubleFacts.ltb_key by assumption. by_keys.
  - intros x y z Hx Hy Hz. unfold equiv.
    rewrite !andb_true_iff, !negb_true_iff.
    rewrite !DoubleFacts.ltb_false_key by assumption. by_keys.
Qed.

Lemma price_greater_swo_on (l : list Order) :
  nan_free l -> strict_weak_on price_greater (fun o => In o l).
Proof.
  intros H. apply (strict_weak_on_weaken _ not_nan); [|apply price_greater_swo].
  intros x Hx. unfold nan_free in H. rewrite Forall_forall in H. now apply H.
Qed.

Lemma price_less_swo_on (l : list Order) :
  nan_free l -> strict_weak_on price_less (fun o => In o l).
Proof.
  intros H. apply (strict_weak_on_weaken _ not_nan); [|apply price_less_swo].
  intros x Hx. unfold nan_free in H. rewrite Forall_forall in H. now apply H.
Qed.

Lemma valid_order_not_nan o : valid_order o -> not_nan o.
Proof. intros [H _]. now apply DoubleFacts.gtb_zero_not_nan. Qed.

Lemma valid_orders_nan_free l : Forall valid_order l -> nan_free l.
Proof.
  intros H. eapply Forall_impl; [|exact H]. apply valid_order_not_nan.
Qed.

(** ** One iteration of the matching loop *)

Lemma int_result_some z r : int_result z = Some r -> r = z /\ is_int z = true.
Proof.
  unfold int_result. destruct (is_int z); [|discriminate].
  intros [= <-]. auto.
Qed.

Lemma is_int_bounds z : is_int z = true <-> INT_MIN <= z <= INT_MAX.
Proof. unfold is_int. rewrite andb_true_iff, !Z.leb_le. reflexivity. Qed.

Lemma int_result_in_range z : INT_MIN <= z <= INT_MAX -> int_result z = Some z.
Proof.
  intros H. unfold int_result. apply is_int_bounds in H. now rewrite H.
Qed.

(** What a trading iteration is made of. *)
Lemma match_iter_continue s t s1 :
  match_iter s = Continue t s1 ->
  exists b bs a sells,
    buyOrders s = b :: bs /\ sellOrders s = a :: sells /\
    Double.geb (price b) (price a) = true /\
    let q := Z.min (quantity b) (quantity a) in
    is_int (quantity b - q) = true /\ is_int (quantity a - q) = true /\
    t = {| trade_quantity := q; trade_price := price a |} /\
    s1 = {| buyOrders := erase_if_zero (with_quantity b (quantity b - q) :: bs);
            sellOrders := erase_if_zero (with_quantity a (quantity a - q) :: sells);
            orderIdCounter := orderIdCounter s |}.
Proof.
  unfold match_iter.
  destruct (buyOrders s) as [|b bs]; [discriminate|].
  destruct (sellOrders s) as [|a sells]; [discriminate|].
  destruct (Double.geb (price b) (price a)) eqn:G; [|discriminate].
  unfold int_sub.
  destruct (int_result (quantity b - _)) as [qb|] eqn:Eb; [|discriminate].
  destruct (int_result (quantity a - _)) as [qa|] eqn:Ea; [|discriminate].
  apply int_result_some in Eb, Ea. destruct Eb as [-> Hb], Ea as [-> Ha].
  intros [= <- <-]. exists b, bs, a, sells. repeat split; auto.
Qed.

(** Every trade erases the front bid or the front ask: the traded quantity
    is the smaller of the two. *)
Lemma match_iter_fewer_orders s t s1 :
  match_iter s = Continue t s1 ->
  (length (buyOrders s1) + length (sellOrders s1)
   < length (buyOrders s) + length (sellOrders s))%nat.
Proof.
  intros H. apply match_iter_continue in H.
  destruct H as (b & bs & a & sells & -> & -> & _ & _ & _ & _ & ->).
  cbn [buyOrders sellOrders erase_if_zero with_quantity quantity].
  destruct (Z.min_spec (quantity b) (quantity a)) as [[_ ->]|[_ ->]].
  - rewrite Z.sub_diag. cbn [Z.eqb].
    destruct (_ =? 0); cbn [length]; lia.
  - rewrite Z.sub_diag. cbn [Z.eqb].
    destruct (_ =? 0); cbn [length]; lia.
Qed.

(** ** The fuel of [matchOrders] is enough *)

Lemma match_loop_deterministic s ts s' ts' s'' :
  match_loop s ts s' -> match_loop s ts' s'' -> ts = ts' /\ s' = s''.
Proof.
  intros H. revert ts' s''.
  induction H as [s Hb|s t s1 ts s2 Hc _ IH]; intros ts' s'' H'.
  - inversion H'; subst; [auto|congruence].
  - inversion H' as [|? t' s1' ts1 ? Hc' Hl']; subst; [congruence|].
    rewrite Hc in Hc'. injection Hc' as <- <-.
    destruct (IH _ _ Hl') as [-> ->]. auto.
Qed.

Lemma matchOrders_fuel_loop fuel s :
  (length (buyOrders s) + length (sellOrders s) <= fuel)%nat ->
  forall ts s', matchOrders_fuel fuel s = Some (ts, s') <-> match_loop s ts s'.
Proof.
  revert s. induction fuel as [|fuel IH]; intros s Hfuel ts s'.
  - cbn. destruct (match_iter s) as [|t s1|] eqn:E.
    + split.
      * intros [= <- <-]. now constructor.
      * intros H. inversion H; subst; [reflexivity|congruence].
    + apply match_iter_fewer_orders in E. lia.
    + split; [discriminate|]. intros H. inversion H; congruence.
  - cbn. destruct (match_iter s) as [|t s1|] eqn:E.
    + split.
      * intros [= <- <-]. now constructor.
      * intros H. inversion H; subst; [reflexivity|congruence].
    + pose proof (match_iter_fewer_orders _ _ _ E) as Hlt.
      assert (Hfuel1 : (length (buyOrders s1) + length (sellOrders s1) <= fuel)%nat) by lia.
      split.
      * destruct (matchOrders_fuel fuel s1) as [[ts1 s2]|] eqn:E1; [|discriminate].
        intros [= <- <-]. econstructor; [exact E|].
        now apply (IH s1 Hfuel1).
      * intros H. inversion H as [|? t' s1' ts1 ? Hc Hl]; subst; [congruence|].
        rewrite E in Hc. injection Hc as <- <-.
        apply (IH s1 Hfuel1) in Hl. now rewrite Hl.
    + split; [discriminate|]. intros H. inversion H; congruence.
Qed.

(** [matchOrders] computes the executions of the loop. *)
Lemma matchOrders_loop s ts s' :
  matchOrders s = Some (ts, s') <-> match_loop s ts s'.
Proof. apply matchOrders_fuel_loop. apply Nat.le_refl. Qed.

(** More fuel changes nothing. *)
Lemma matchOrders_fuel_enough fuel s :
  (length (buyOrders s) + length (sellOrders s) <= fuel)%nat ->
  matchOrders_fuel fuel s = matchOrders s.
Proof.
  intros H. destruct (matchOrders s) as [[ts s']|] eqn:E.
  - apply matchOrders_loop in E. now apply matchOrders_fuel_loop.
  - destruct (matchOrders_fuel fuel s) as [[ts s']|] eqn:E'; [|reflexivity].
    apply (matchOrders_fuel_loop fuel s H) in E'.
    apply matchOrders_loop in E'. congruence.
Qed.


(** ** Well-formed books *)

Lemma sorted_by_front_update (comp : Order -> Order -> bool) b q bs :
  (forall x, comp x (with_quantity b q) = comp x b) ->
  sorted_by comp (b :: bs) ->
  sorted_by comp (erase_if_zero (with_quantity b q :: bs)).
Proof.
  intros Hc Hs. inversion Hs as [|? ? Hbs Hb]; subst.
  cbn. destruct (q =? 0); [exact Hbs|].
  constructor; [exact Hbs|].
  eapply Forall_impl; [|exact Hb]. intros x Hx. cbn beta in *.
  now rewrite Hc.
Qed.

Lemma valid_front_update b q bs :
  0 <= q <= quantity b ->
  Forall valid_order (b :: bs) ->
  Forall valid_order (erase_if_zero (with_quantity b q :: bs)).
Proof.
  intros Hq Hv. inversion Hv as [|? ? [Hp Hb] Hbs]; subst.
  cbn. destruct (q =? 0) eqn:E; [exact Hbs|].
  apply Z.eqb_neq in E. constructor; [|exact Hbs].
  split; cbn; [exact Hp|lia].
Qed.

Lemma positive_front_update b q bs :
  0 <= q <= quantity b ->
  Forall (fun o => 0 < quantity o <= INT_MAX) (b :: bs) ->
  Forall (fun o => 0 < quantity o <= INT_MAX)
         (erase_if_zero (with_quantity b q :: bs)).
Proof.
  intros Hq Hv. inversion Hv as [|? ? Hb Hbs]; subst.
  cbn. destruct (q =? 0) eqn:E; [exact Hbs|].
  apply Z.eqb_neq in E. constructor; [|exact Hbs]. cbn. lia.
Qed.

Lemma total_quantity_front_update b q bs :
  total_quantity (erase_if_zero (with_quantity b q :: bs))
  = total_quantity (b :: bs) - (quantity b - q).
Proof.
  cbn. destruct (q =? 0) eqn:E.
  - apply Z.eqb_eq in E. lia.
  - cbn. lia.
Qed.

Lemma book_valid_positive s : book_valid s -> positive_quantities s.
Proof.
  intros (Hb & Hs & _). split; (eapply Forall_impl; [|eassumption]);
    intros o [_ H]; exact H.
Qed.

(** With positive quantities the subtractions of the loop body stay in
    range: the iteration is defined. *)
Lemma match_iter_defined s :
  positive_quantities s -> match_iter s <> Undefined.
Proof.
  intros [Hb Hs]. unfold match_iter.
  destruct (buyOrders s) as [|b bs]; [discriminate|].
  destruct (sellOrders s) as [|a sells]; [discriminate|].
  destruct (Double.geb _ _); [|discriminate].
  inversion Hb as [|? ? Hqb _]; inversion Hs as [|? ? Hqa _]; subst.
  unfold int_sub, INT_MAX in *.
  rewrite !int_result_in_range; [discriminate| |]; unfold INT_MIN, INT_MAX; lia.
Qed.

Lemma match_iter_positive s t s1 :
  positive_quantities s -> match_iter s = Continue t s1 ->
  positive_quantities s1 /\ 0 < trade_quantity t /\
  resting_quantity s1 = resting_quantity s - 2 * trade_quantity t.
Proof.
  intros [Hb Hs] H. apply match_iter_continue in H.
  destruct H as (b & bs & a & sells & Eb & Ea & _ & _ & _ & -> & ->).
  rewrite Eb in Hb. rewrite Ea in Hs.
  inversion Hb as [|? ? Hqb _]; inversion Hs as [|? ? Hqa _]; subst.
  unfold positive_quantities, resting_quantity.
  cbn [buyOrders sellOrders trade_quantity]. rewrite Eb, Ea.
  rewrite !total_quantity_front_update. repeat split.
  - apply positive_front_update; [lia|exact Hb].
  - apply positive_front_update; [lia|exact Hs].
  - lia.
  - lia.
Qed.

Lemma match_iter_valid s t s1 :
  book_valid s -> match_iter s = Continue t s1 -> book_valid s1.
Proof.
  intros (Hb & Hs & Sb & Ss) H. apply match_iter_continue in H.
  destruct H as (b & bs & a & sells & Eb & Ea & _ & _ & _ & -> & ->).
  rewrite Eb in Hb, Sb. rewrite Ea in Hs, Ss.
  assert (0 < quantity b) by (inversion Hb as [|? ? [_ ?] _]; lia).
  assert (0 < quantity a) by (inversion Hs as [|? ? [_ ?] _]; lia).
  unfold book_valid. cbn [buyOrders sellOrders]. repeat split.
  - apply valid_front_update; [lia|exact Hb].
  - apply valid_front_update; [lia|exact Hs].
  - apply sorted_by_front_update; [reflexivity|exact Sb].
  - apply sorted_by_front_update; [reflexivity|exact Ss].
Qed.

Lemma match_loop_valid s ts s' :
  match_loop s ts s' -> book_valid s -> book_valid s'.
Proof.
  induction 1 as [s Hb|s t s1 ts s2 Hc _ IH]; intros Hv; [exact Hv|].
  apply IH. eapply match_iter_valid; eauto.
Qed.

Lemma match_loop_final s ts s' : match_loop s ts s' -> match_iter s' = Break.
Proof. induction 1; auto. Qed.

(** A book on which the loop stops, with no NaN at its fronts, does not
    cross. *)
Lemma break_non_crossing s :
  nan_free (buyOrders s) -> nan_free (sellOrders s) ->
  match_iter s = Break -> non_crossing s.
Proof.
  unfold match_iter, non_crossing. intros Nb Ns.
  destruct (buyOrders s) as [|b bs]; [auto|].
  destruct (sellOrders s) as [|a sells]; [auto|].
  inversion Nb; inversion Ns; subst.
  destruct (Double.geb (price b) (price a)) eqn:G.
  - destruct (int_sub _ _); [destruct (int_sub _ _)|]; discriminate.
  - intros _. now apply DoubleFacts.geb_false_ltb.
Qed.

(** A book that does not cross leaves the loop at once. *)
Lemma non_crossing_break s : non_crossing s -> match_iter s = Break.
Proof.
  unfold match_iter, non_crossing.
  destruct (buyOrders s) as [|b bs]; [auto|].
  destruct (sellOrders s) as [|a sells]; [auto|].
  intros H. now rewrite (DoubleFacts.ltb_geb_false _ _ H).
Qed.

(** ** Insertion *)

Lemma insertOrder_some S s isBuy price quantity :
  orderIdCounter s < INT_MAX -> INT_MIN <= orderIdCounter s ->
  insertOrder S s isBuy price quantity =
  let order := mkOrder (orderIdCounter s) isBuy price quantity in
  Some (order,
        if isBuy then
          {| buyOrders := std_sort S price_greater (buyOrders s ++ [order]);
             sellOrders := sellOrders s;
             orderIdCounter := orderIdCounter s + 1 |}
        else
          {| buyOrders := buyOrders s;
             sellOrders := std_sort S price_less (sellOrders s ++ [order]);
             orderIdCounter := orderIdCounter s + 1 |}).
Proof.
  intros H1 H2. unfold insertOrder, int_incr.
  rewrite int_result_in_range; [reflexivity|lia].
Qed.

Lemma insertOrder_inv S s isBuy price quantity order s1 :
  insertOrder S s isBuy price quantity = Some (order, s1) ->
  orderIdCounter s < INT_MAX /\
  order = mkOrder (orderIdCounter s) isBuy price quantity /\
  orderIdCounter s1 = orderIdCounter s + 1 /\
  (if isBuy then
     buyOrders s1 = std_sort S price_greater (buyOrders s ++ [order]) /\
     sellOrders s1 = sellOrders s
   else
     sellOrders s1 = std_sort S price_less (sellOrders s ++ [order]) /\
     buyOrders s1 = buyOrders s).
Proof.
  unfold insertOrder, int_incr.
  destruct (int_result (orderIdCounter s + 1)) as [c|] eqn:E; [|discriminate].
  apply int_result_some in E. destruct E as [-> E].
  apply is_int_bounds in E. intros [= <- <-].
  split; [lia|]. split; [reflexivity|].
  destruct isBuy; cbn; auto.
Qed.

Lemma insertOrder_valid S s isBuy price quantity order s1 :
  book_valid s ->
  Double.gtb price Double.zero = true -> 0 < quantity <= INT_MAX ->
  insertOrder S s isBuy price quantity = Some (order, s1) ->
  book_valid s1.
Proof.
  intros (Hb & Hs & Sb & Ss) Hp Hq H.
  apply insertOrder_inv in H. destruct H as (_ & -> & _ & H).
  set (order := mkOrder _ _ _ _) in *.
  assert (Ho : valid_order order) by (split; assumption).
  unfold book_valid. destruct isBuy; destruct H as [-> ->].
  - assert (Hall : Forall valid_order (buyOrders s ++ [order])).
    { apply Forall_app. split; [exact Hb|]. now constructor. }
    pose proof (price_greater_swo_on _ (valid_orders_nan_free _ Hall)) as W.
    repeat split; auto.
    + eapply Permutation_Forall; [apply (std_sort_permutation S _ _ _ W)|exact Hall].
    + apply (std_sort_sorted S _ _ _ W).
  - assert (Hall : Forall valid_order (sellOrders s ++ [order])).
    { apply Forall_app. split; [exact Hs|]. now constructor. }
    pose proof (price_less_swo_on _ (valid_orders_nan_free _ Hall)) as W.
    repeat split; auto.
    + eapply Permutation_Forall; [apply (std_sort_permutation S _ _ _ W)|exact Hall].
    + apply (std_sort_sorted S _ _ _ W).
Qed.

(** ** [placeOrder] and [run] *)

Lemma placeOrder_inv S s isBuy price quantity p :
  placeOrder S s isBuy price quantity = Some p ->
  exists order s1,
    insertOrder S s isBuy price quantity = Some (order, s1) /\
    match_loop s1 (placed_trades p) (placed_book p) /\
    placed_id p = orderIdCounter s.
Proof.
  unfold placeOrder.
  destruct (insertOrder S s isBuy price quantity) as [[order s1]|] eqn:E;
    [|discriminate].
  destruct (matchOrders s1) as [[ts s2]|] eqn:M; [|discriminate].
  intros [= <-]. exists order, s1. cbn. split; [reflexivity|].
  split; [now apply matchOrders_loop|].
  apply insertOrder_inv in E. now destruct E as (_ & -> & _).
Qed.

Lemma match_loop_counter s ts s' :
  match_loop s ts s' -> orderIdCounter s' = orderIdCounter s.
Proof.
  induction 1 as [|s t s1 ts s2 Hc _ IH]; [reflexivity|].
  rewrite IH. apply match_iter_continue in Hc.
  destruct Hc as (b & bs & a & sells & _ & _ & _ & _ & _ & _ & ->).
  reflexivity.
Qed.

Lemma submit_valid S s r p :
  book_valid s -> valid_request r -> submit S s r = Some p ->
  book_valid (placed_book p) /\ non_crossing (placed_book p).
Proof.
  intros Hv [Hp Hq] H. apply placeOrder_inv in H.
  destruct H as (order & s1 & Hi & Hl & _).
  pose proof (insertOrder_valid _ _ _ _ _ _ _ Hv Hp Hq Hi) as Hv1.
  pose proof (match_loop_valid _ _ _ Hl Hv1) as Hv2.
  split; [exact Hv2|].
  destruct Hv2 as (Hb & Hs & _).
  apply break_non_crossing; try now apply valid_orders_nan_free.
  eapply match_loop_final; eauto.
Qed.

(** An invariant of the valid calls holds after every sequence of them. *)
Lemma run_invariant (S : StdSort) (I : ExchangeSimulator -> Prop) :
  (forall s r p, I s -> valid_request r -> submit S s r = Some p ->
                 I (placed_book p)) ->
  forall reqs s outs s',
    I s -> Forall valid_request reqs -> run S s reqs = Some (outs, s') -> I s'.
Proof.
  intros Hstep. induction reqs as [|r reqs IH]; intros s outs s' Hs Hr H.
  - cbn in H. injection H as <- <-. exact Hs.
  - cbn in H. inversion Hr as [|? ? Hr1 Hr2]; subst.
    destruct (submit S s r) as [p|] eqn:E; [|discriminate].
    destruct (run S (placed_book p) reqs) as [[outs1 s1]|] eqn:E1; [|discriminate].
    injection H as <- <-.
    apply (IH (placed_book p) outs1 s1); auto.
    now apply (Hstep s r p).
Qed.

Lemma new_book_valid : book_valid ExchangeSimulator_new.
Proof. repeat split; constructor. Qed.

Lemma run_book_valid S reqs outs s :
  Forall valid_request reqs ->
  run S ExchangeSimulator_new reqs = Some (outs, s) -> book_valid s.
Proof.
  intros Hr H.
  apply (run_invariant S book_valid) with (reqs := reqs) (s := ExchangeSimulator_new) (outs := outs); auto.
  - intros s0 r p Hs Hv Hp. now apply (submit_valid S s0 r p).
  - apply new_book_valid.
Qed.

(** ** The runs of the loop, trade by trade *)

Lemma match_loop_steps (R : ExchangeSimulator -> Trade -> ExchangeSimulator -> Prop) :
  (forall s t s1, match_iter s = Continue t s1 -> R s t s1) ->
  forall s ts s', match_loop s ts s' -> steps R s ts s'.
Proof.
  intros HR s ts s'. induction 1; econstructor; eauto.
Qed.

Lemma match_iter_trade_at_fronts s t s1 :
  match_iter s = Continue t s1 -> trade_at_fronts s t s1.
Proof.
  intros H. apply match_iter_continue in H.
  destruct H as (b & bs & a & sells & Eb & Ea & _ & _ & _ & -> & ->).
  exists b, bs, a, sells. cbn.
  repeat split; auto.
  - destruct (Z.eqb_spec (quantity b - Z.min (quantity b) (quantity a)) 0),
             (Z.eqb_spec (quantity b) (Z.min (quantity b) (quantity a)));
      try reflexivity; lia.
  - destruct (Z.eqb_spec (quantity a - Z.min (quantity b) (quantity a)) 0),
             (Z.eqb_spec (quantity a) (Z.min (quantity b) (quantity a)));
      try reflexivity; lia.
Qed.

Lemma match_iter_trade_conserves s t s1 :
  match_iter s = Continue t s1 -> trade_conserves s t s1.
Proof.
  intros H. apply match_iter_continue in H.
  destruct H as (b & bs & a & sells & Eb & Ea & _ & _ & _ & -> & ->).
  unfold trade_conserves. cbn [buyOrders sellOrders trade_quantity].
  rewrite Eb, Ea, !total_quantity_front_update. lia.
Qed.

Lemma steps_conserve s ts s' :
  steps trade_conserves s ts s' ->
  total_quantity (buyOrders s) - total_quantity (buyOrders s')
    = traded_quantity ts /\
  total_quantity (sellOrders s) - total_quantity (sellOrders s')
    = traded_quantity ts.
Proof.
  induction 1 as [s|s t s1 ts s2 [Hb Hs] _ [IHb IHs]];
    unfold traded_quantity in *; cbn [fold_right] in *; lia.
Qed.

(** ** The run of [main] with the GNU [std::sort] *)

Ltac valid_requests :=
  repeat (constructor;
          [split; [reflexivity | cbn [req_quantity]; unfold INT_MAX; lia] | ]);
  constructor.

Lemma main_orders_valid : Forall valid_request main_orders.
Proof. unfold main_orders. valid_requests. Qed.

Lemma run_main_libstdcxx :
  run libstdcxx_sort ExchangeSimulator_new main_orders
  = Some (main_outputs, main_book).
Proof. vm_compute. reflexivity. Qed.

(** ** C1: the book never rests crossed *)

(** C1. After every call of a sequence of valid submissions, started on the
    empty book, has returned, the book does not cross: the front bid is
    priced strictly below the front ask, or a side is empty. *)
Theorem non_crossing_after_submit (S : StdSort) reqs outs s :
  Forall valid_request reqs ->
  run S ExchangeSimulator_new reqs = Some (outs, s) ->
  non_crossing s.
Proof.
  intros Hr H.
  cut (book_valid s /\ non_crossing s); [tauto|].
  apply (run_invariant S (fun s => book_valid s /\ non_crossing s))
    with (reqs := reqs) (s := ExchangeSimulator_new) (outs := outs); auto.
  - intros s0 r p [Hv _] Hreq Hp. now apply (submit_valid S s0 r p).
  - split; [apply new_book_valid|exact I].
Qed.

Lemma non_crossing_after_main : non_crossing main_book.
Proof.
  exact (non_crossing_after_submit libstdcxx_sort main_orders
           main_outputs main_book main_orders_valid run_main_libstdcxx).
Defined.

(** ** C5: each side is in price order *)

Lemma StronglySorted_weaken {A} (P : A -> Prop) (R R' : A -> A -> Prop) l :
  (forall a b, P a -> P b -> R a b -> R' a b) ->
  Forall P l -> StronglySorted R l -> StronglySorted R' l.
Proof.
  intros HR HP HS. induction HS as [|a l HS IH Ha]; [constructor|].
  inversion HP as [|? ? Pa Pl]; subst. constructor; [now apply IH|].
  rewrite Forall_forall in *. intros b Hb. apply HR; auto.
Qed.

Lemma book_valid_price_order s :
  book_valid s ->
  non_increasing_prices (buyOrders s) /\ non_decreasing_prices (sellOrders s).
Proof.
  intros (Hb & Hs & Sb & Ss). split.
  - apply (StronglySorted_weaken not_nan) with (3 := Sb).
    + unfold not_nan, price_greater. intros a b Ha Hb' H.
      apply DoubleFacts.geb_key; auto.
      apply DoubleFacts.gtb_false_key in H; auto.
    + eapply Forall_impl; [|exact Hb]. apply valid_order_not_nan.
  - apply (StronglySorted_weaken not_nan) with (3 := Ss).
    + unfold not_nan, price_less. intros a b Ha Hb' H.
      apply DoubleFacts.leb_key; auto.
      apply DoubleFacts.ltb_false_key in H; auto.
    + eapply Forall_impl; [|exact Hs]. apply valid_order_not_nan.
Qed.

(** C5. After every call of a sequence of valid submissions the bids are in
    non-increasing price order (highest first) and the asks in
    non-decreasing price order (lowest first). *)
Theorem price_order_after_submit (S : StdSort) reqs outs s :
  Forall valid_request reqs ->
  run S ExchangeSimulator_new reqs = Some (outs, s) ->
  non_increasing_prices (buyOrders s) /\ non_decreasing_prices (sellOrders s).
Proof.
  intros Hr H. apply book_valid_price_order. eapply run_book_valid; eauto.
Qed.

Lemma price_order_after_main :
  non_increasing_prices (buyOrders main_book) /\
  non_decreasing_prices (sellOrders main_book).
Proof.
  exact (price_order_after_submit libstdcxx_sort main_orders
           main_outputs main_book main_orders_valid run_main_libstdcxx).
Defined.

(** ** C2: what a trade is *)

(** C2. Every trade printed during a call of [placeOrder], whichever side
    the incoming order is on, is made at the two fronts of the book as it
    stands at that iteration: its quantity is the smaller of the front bid's
    and the front ask's quantities, its price is the front ask's price, and
    both fronts lose exactly that quantity (a front left with nothing is
    erased). *)
Theorem trades_at_fronts (S : StdSort) s isBuy price quantity p :
  placeOrder S s isBuy price quantity = Some p ->
  exists order s1,
    insertOrder S s isBuy price quantity = Some (order, s1) /\
    steps trade_at_fronts s1 (placed_trades p) (placed_book p).
Proof.
  intros H. apply placeOrder_inv in H.
  destruct H as (order & s1 & Hi & Hl & _).
  exists order, s1. split; [exact Hi|].
  apply match_loop_steps with (2 := Hl).
  apply match_iter_trade_at_fronts.
Qed.

Lemma place_buy_60 :
  placeOrder libstdcxx_sort resting_sell_50 true (Double.of_Z 60) 10
  = Some buy_60_placed.
Proof. vm_compute. reflexivity. Qed.

Lemma trades_at_fronts_buy_60 :
  exists order s1,
    insertOrder libstdcxx_sort resting_sell_50 true (Double.of_Z 60) 10
      = Some (order, s1) /\
    steps trade_at_fronts s1 [ mkTrade 10 (Double.of_Z 50) ]
          {| buyOrders := []; sellOrders := []; orderIdCounter := 2 |}.
Proof.
  exact (trades_at_fronts libstdcxx_sort resting_sell_50 true
           (Double.of_Z 60) 10 buy_60_placed place_buy_60).
Defined.

(** The other way round: a buy of 10 at 60 rests, a sell of 10 at 50
    arrives.  The trade is again made at the ask's price, 50, which is here
    the price of the incoming order and not of the resting one. *)
Lemma sell_aggressor_trades_at_its_own_price :
  placeOrder libstdcxx_sort
    {| buyOrders := [ mkOrder 0 true (Double.of_Z 60) 10 ];
       sellOrders := [];
       orderIdCounter := 1 |}
    false (Double.of_Z 50) 10
  = Some {| placed_id := 1;
            placed_trades := [ mkTrade 10 (Double.of_Z 50) ];
            placed_book :=
              {| buyOrders := []; sellOrders := []; orderIdCounter := 2 |} |}.
Proof. vm_compute. reflexivity. Qed.

(** ** C3: conservation of quantity *)



(** ** C7: the matching loop terminates *)

Lemma total_quantity_nonneg l :
  Forall (fun o => 0 < quantity o <= INT_MAX) l -> 0 <= total_quantity l.
Proof.
  induction 1 as [|o l Ho _ IH];
    unfold total_quantity in *; cbn [fold_right] in *; lia.
Qed.

Lemma resting_quantity_nonneg s :
  positive_quantities s -> 0 <= resting_quantity s.
Proof.
  intros [Hb Hs]. unfold resting_quantity.
  apply total_quantity_nonneg in Hb, Hs. lia.
Qed.

(** Induction on the resting quantity, which every trade decreases. *)
Lemma match_loop_terminates (n : nat) s :
  positive_quantities s -> (Z.to_nat (resting_quantity s) < n)%nat ->
  exists ts s', match_loop s ts s'.
Proof.
  revert s. induction n as [|n IH]; intros s Hpos Hn; [lia|].
  destruct (match_iter s) as [|t s1|] eqn:E.
  - exists [], s. now constructor.
  - destruct (match_iter_positive s t s1 Hpos E) as (Hpos1 & Ht & Hq).
    pose proof (resting_quantity_nonneg s1 Hpos1) as H0.
    destruct (IH s1 Hpos1) as (ts & s' & Hl); [lia|].
    exists (t :: ts), s'. econstructor; eauto.
  - now apply match_iter_defined in E.
Qed.

(** C7. On a book whose resting orders all have a strictly positive quantity
    every iteration that trades leaves such a book and strictly decreases
    the total resting quantity, which stays non-negative; hence the loop
    terminates, and [matchOrders] returns its result. *)
Theorem matchOrders_terminates s :
  positive_quantities s ->
  (forall t s1, match_iter s = Continue t s1 ->
     positive_quantities s1 /\
     0 <= resting_quantity s1 < resting_quantity s) /\
  exists ts s', match_loop s ts s' /\ matchOrders s = Some (ts, s').
Proof.
  intros Hpos. split.
  - intros t s1 E.
    destruct (match_iter_positive s t s1 Hpos E) as (Hpos1 & Ht & Hq).
    pose proof (resting_quantity_nonneg s1 Hpos1). split; [exact Hpos1|lia].
  - destruct (match_loop_terminates (S (Z.to_nat (resting_quantity s))) s Hpos)
      as (ts & s' & Hl); [lia|].
    exists ts, s'. split; [exact Hl|]. now apply matchOrders_loop.
Qed.

Lemma crossed_book_positive : positive_quantities crossed_book.
Proof.
  split; cbn; repeat constructor; cbn; unfold INT_MAX; lia.
Qed.

Lemma matchOrders_terminates_crossed_book :
  (forall t s1, match_iter crossed_book = Continue t s1 ->
     positive_quantities s1 /\
     0 <= resting_quantity s1 < resting_quantity crossed_book) /\
  exists ts s', match_loop crossed_book ts s' /\
                matchOrders crossed_book = Some (ts, s').
Proof.
  exact (matchOrders_terminates crossed_book crossed_book_positive).
Defined.

(** ** C8: order ids *)

Lemma submit_id_counter S s r p :
  submit S s r = Some p ->
  placed_id p = orderIdCounter s /\
  orderIdCounter (placed_book p) = orderIdCounter s + 1.
Proof.
  intros H. apply placeOrder_inv in H.
  destruct H as (order & s1 & Hi & Hl & Hid).
  split; [exact Hid|].
  apply insertOrder_inv in Hi. destruct Hi as (_ & _ & Hc & _).
  rewrite (match_loop_counter _ _ _ Hl). exact Hc.
Qed.

Lemma run_ids_from_counter S reqs : forall s outs s',
  run S s reqs = Some (outs, s') ->
  Forall (fun i => orderIdCounter s <= i) (map fst outs) /\
  StronglySorted Z.lt (map fst outs).
Proof.
  induction reqs as [|r reqs IH]; intros s outs s' H; cbn in H.
  - injection H as <- <-. split; constructor.
  - destruct (submit S s r) as [p|] eqn:E; [|discriminate].
    destruct (run S (placed_book p) reqs) as [[outs1 s1]|] eqn:E1; [|discriminate].
    injection H as <- <-.
    destruct (submit_id_counter _ _ _ _ E) as [Hid Hc].
    destruct (IH _ _ _ E1) as [Hge Hs]. rewrite Hc in Hge. cbn [map fst].
    split.
    + constructor; [lia|]. eapply Forall_impl; [|exact Hge]. cbn. lia.
    + constructor; [exact Hs|]. eapply Forall_impl; [|exact Hge]. cbn. lia.
Qed.

Lemma increasing_NoDup (l : list Z) : StronglySorted Z.lt l -> NoDup l.
Proof.
  induction 1 as [|a l Hs IH Ha]; constructor; [|exact IH].
  intros Hin. rewrite Forall_forall in Ha. specialize (Ha a Hin). lia.
Qed.

(** C8. In every sequence of calls the ids returned are strictly increasing
    in the order of the calls: the id of a later call is strictly greater
    than the id of any earlier call, and no id is returned twice. *)
Theorem order_ids_increasing (S : StdSort) s reqs outs s' :
  run S s reqs = Some (outs, s') ->
  StronglySorted Z.lt (map fst outs) /\ NoDup (map fst outs).
Proof.
  intros H. apply run_ids_from_counter in H. destruct H as [_ H].
  split; [exact H|]. now apply increasing_NoDup.
Qed.

Lemma order_ids_increasing_main :
  StronglySorted Z.lt (map fst main_outputs) /\ NoDup (map fst main_outputs).
Proof.
  exact (order_ids_increasing libstdcxx_sort ExchangeSimulator_new
           main_orders main_outputs main_book run_main_libstdcxx).
Defined.

(** ** C10: an order that does not cross leaves the other side alone *)

Lemma no_cross_no_trade_aux (S : StdSort) s isBuy price quantity order s1 :
  insertOrder S s isBuy price quantity = Some (order, s1) ->
  non_crossing s1 ->
  placeOrder S s isBuy price quantity
    = Some {| placed_id := id order; placed_trades := []; placed_book := s1 |} /\
  opposite_side isBuy s1 = opposite_side isBuy s.
Proof.
  intros Hi Hn.
  assert (Hm : matchOrders s1 = Some ([], s1)).
  { apply matchOrders_loop. constructor. now apply non_crossing_break. }
  unfold placeOrder. rewrite Hi, Hm. split; [reflexivity|].
  apply insertOrder_inv in Hi. destruct Hi as (_ & _ & _ & H).
  destruct isBuy; cbn [opposite_side]; tauto.
Qed.

(** C10. When the book does not cross once the new order is inserted (the
    front bid is strictly below the front ask, or a side is empty), the call
    prints no trade and the side opposite to the order is exactly what it
    was before the call. *)
Theorem no_cross_no_trade (S : StdSort) s isBuy price quantity order s1 :
  insertOrder S s isBuy price quantity = Some (order, s1) ->
  non_crossing s1 ->
  exists p,
    placeOrder S s isBuy price quantity = Some p /\
    placed_trades p = [] /\
    opposite_side isBuy (placed_book p) = opposite_side isBuy s.
Proof.
  intros Hi Hn.
  destruct (no_cross_no_trade_aux S s isBuy price quantity order s1 Hi Hn)
    as (Hpl & Hside).
  exists {| placed_id := id order; placed_trades := []; placed_book := s1 |}.
  auto.
Qed.

Lemma insert_sell_101 :
  insertOrder libstdcxx_sort book_after_third_order false
              (Double.of_Z 101) 25
  = Some (sell_101, main_book).
Proof. vm_compute. reflexivity. Qed.

Lemma main_book_non_crossing : non_crossing main_book.
Proof. reflexivity. Qed.

Lemma no_cross_no_trade_sell_101 :
  exists p,
    placeOrder libstdcxx_sort book_after_third_order false
               (Double.of_Z 101) 25 = Some p /\
    placed_trades p = [] /\
    buyOrders (placed_book p) = buyOrders book_after_third_order.
Proof.
  exact (no_cross_no_trade libstdcxx_sort book_after_third_order false
           (Double.of_Z 101) 25 sell_101 main_book
           insert_sell_101 main_book_non_crossing).
Defined.

(** ** C4: [placeOrder] validates nothing *)

Lemma nan_free_snoc l o :
  nan_free l -> Double.is_nan (price o) = false -> nan_free (l ++ [o]).
Proof.
  intros Hl Ho. apply Forall_app. split; [exact Hl|]. now constructor.
Qed.





(** ** C9: the run of [main] *)

Lemma std_sort_singleton (S : StdSort) {A} (comp : A -> A -> bool) x :
  comp x x = false -> std_sort S comp [x] = [x].
Proof.
  intros Hx.
  assert (W : strict_weak_on comp (fun y => In y [x])).
  { repeat split.
    - intros y [<-|[]]. exact Hx.
    - intros a b c [<-|[]] [<-|[]] [<-|[]]. auto.
    - intros a b c [<-|[]] [<-|[]] [<-|[]]. auto. }
  pose proof (std_sort_permutation S _ comp [x] W) as HP.
  now apply Permutation_length_1_inv in HP.
Qed.

(** Two elements already in strict order are left as they are. *)
Lemma std_sort_ordered_pair (S : StdSort) {A} (comp : A -> A -> bool) x y :
  strict_weak_on comp (fun z => In z [x; y]) ->
  comp x y = true -> std_sort S comp [x; y] = [x; y].
Proof.
  intros W Hxy.
  pose proof (std_sort_permutation S _ comp _ W) as HP.
  pose proof (std_sort_sorted S _ comp _ W) as HS.
  apply Permutation_length_2_inv in HP. destruct HP as [E|E]; [exact E|].
  rewrite E in HS. inversion HS as [|? ? _ HF]; subst.
  inversion HF; subst. congruence.
Qed.

Ltac insert_order :=
  unfold placeOrder;
  rewrite insertOrder_some by (cbn; unfold INT_MIN, INT_MAX; lia);
  cbv zeta;
  cbn [ExchangeSimulator_new book_after_first_order book_after_second_order
       book_after_third_order buyOrders sellOrders orderIdCounter app].

Lemma main_first_call (S : StdSort) :
  placeOrder S ExchangeSimulator_new true (Double.of_Z 100) 100
  = Some {| placed_id := 0; placed_trades := [];
            placed_book := book_after_first_order |}.
Proof.
  insert_order. rewrite std_sort_singleton by reflexivity. reflexivity.
Qed.

Lemma main_second_call (S : StdSort) :
  placeOrder S book_after_first_order true (Double.of_Z 99) 50
  = Some {| placed_id := 1; placed_trades := [];
            placed_book := book_after_second_order |}.
Proof.
  insert_order. rewrite std_sort_ordered_pair; [reflexivity| |reflexivity].
  apply price_greater_swo_on. repeat constructor.
Qed.

Lemma main_third_call (S : StdSort) :
  placeOrder S book_after_second_order false (Double.of_Z 100) 75
  = Some {| placed_id := 2; placed_trades := [ mkTrade 75 (Double.of_Z 100) ];
            placed_book := book_after_third_order |}.
Proof.
  insert_order. rewrite std_sort_singleton by reflexivity. reflexivity.
Qed.

Lemma main_fourth_call (S : StdSort) :
  placeOrder S book_after_third_order false (Double.of_Z 101) 25
  = Some {| placed_id := 3; placed_trades := [];
            placed_book := main_book |}.
Proof.
  insert_order. rewrite std_sort_singleton by reflexivity. reflexivity.
Qed.

(** C9. On the new book the calls of [main], Buy 100 at 100, Buy 50 at 99,
    Sell 75 at 100 and Sell 25 at 101, print a single trade, of 75 units at
    100, during the third call; after the third call the bids are 25 at 100
    then 50 at 99 and there is no ask; the fourth call prints no trade and
    its order rests as the only ask.  This holds whatever [std::sort] does
    with equivalent elements. *)
Theorem main_run (S : StdSort) :
  run S ExchangeSimulator_new (firstn 3 main_orders)
    = Some ([ (0, []); (1, []); (2, [ mkTrade 75 (Double.of_Z 100) ]) ],
            book_after_third_order) /\
  run S ExchangeSimulator_new main_orders = Some (main_outputs, main_book).
Proof.
  unfold main_orders.
  cbn [firstn run]. unfold submit.
  cbn [req_isBuy req_price req_quantity].
  rewrite main_first_call. cbn [placed_book placed_id placed_trades].
  rewrite main_second_call. cbn [placed_book placed_id placed_trades].
  rewrite main_third_call. cbn [placed_book placed_id placed_trades].
  rewrite main_fourth_call. cbn [placed_book placed_id placed_trades].
  split; reflexivity.
Qed.

(** ** C6: time priority *)

Lemma two_bids_at_100_valid : Forall valid_request two_bids_at_100.
Proof. unfold two_bids_at_100. valid_requests. Qed.

Lemma sixteen_bids_at_100_valid : Forall valid_request sixteen_bids_at_100.
Proof. unfold sixteen_bids_at_100. cbn [repeat]. valid_requests. Qed.

Lemma seventeen_bids_at_100_valid : Forall valid_request seventeen_bids_at_100.
Proof. unfold seventeen_bids_at_100. cbn [repeat]. valid_requests. Qed.

(** The contract of [std::sort] leaves the order inside a price level open:
    two implementations of it rest two bids at the same price in the two
    possible orders. *)
Lemma std_sort_contract_leaves_ties_open :
  run stable_insertion_sort ExchangeSimulator_new two_bids_at_100
    = Some ([ (0, []); (1, []) ], two_bids_in_order) /\
  run unstable_insertion_sort ExchangeSimulator_new two_bids_at_100
    = Some ([ (0, []); (1, []) ], two_bids_reversed).
Proof. split; vm_compute; reflexivity. Qed.

(** Time priority is not kept beyond 16 orders a side.  With the [std::sort]
    of the GNU library, seventeen valid bids at the same price rest in the
    order 8, 16, 15, ... of their ids. *)
Lemma time_priority_not_guaranteed :
  Forall valid_request seventeen_bids_at_100 /\
  exists outs s,
    run libstdcxx_sort ExchangeSimulator_new seventeen_bids_at_100
      = Some (outs, s) /\
    map id (buyOrders s)
      = [8; 16; 15; 14; 13; 12; 11; 10; 9; 0; 7; 6; 5; 4; 3; 2; 1] /\
    ~ time_priority (buyOrders s).
Proof.
  split; [exact seventeen_bids_at_100_valid|].
  destruct (run libstdcxx_sort ExchangeSimulator_new seventeen_bids_at_100)
    as [[outs s]|] eqn:E; [|vm_compute in E; discriminate].
  exists outs, s. split; [reflexivity|].
  vm_compute in E. injection E as <- <-.
  split; [reflexivity|].
  intros H. cbn [buyOrders] in H. inversion H as [|? ? Htail _]; subst.
  inversion Htail as [|? ? _ HF]; subst.
  inversion HF as [|? ? Hlt _]; subst.
  specialize (Hlt eq_refl). cbn in Hlt. lia.
Qed.

Lemma stable_stable_up_to (S : StdSort) n : stable S -> stable_up_to n S.
Proof. intros H A comp l z _ W. now apply H. Qed.

Lemma stable_insertion_sort_stable : stable stable_insertion_sort.
Proof.
  intros A comp l z W. cbn.
  apply (insertion_sort_by_stable comp (fun x => In x l \/ x = z)); auto.
  apply Forall_forall. auto.
Qed.

(** The [std::sort] of the GNU library keeps equivalent elements in their
    input order in the ranges of at most 16 elements, which it sorts by
    insertion alone. *)
Lemma libstdcxx_sort_stable_up_to_16 : stable_up_to 16 libstdcxx_sort.
Proof.
  intros A comp l z Hlen W. now apply LibstdcxxFacts.sort_stable_16.
Qed.

Section LevelOrder.
Context {A : Type} (comp : A -> A -> bool) (stamp : A -> Z) (P : A -> Prop).
Hypothesis comp_swo : strict_weak_on comp P.

Lemma level_order_filter z l :
  P z -> Forall P l -> level_order comp stamp l ->
  StronglySorted (fun a b => stamp a < stamp b) (filter (equiv comp z) l).
Proof.
  intros Hz Hl Hs. induction Hs as [|a l Hs IH Ha]; [constructor|].
  inversion Hl as [|? ? Pa Pl]; subst. cbn [filter].
  destruct (equiv comp z a) eqn:Ea; [|now apply IH].
  constructor; [now apply IH|].
  apply Forall_forall. intros b Hb. apply filter_In in Hb.
  destruct Hb as [Hb Eb]. rewrite Forall_forall in Ha, Pl.
  apply (Ha b Hb).
  apply (swo_equiv_trans comp P comp_swo a z b); auto.
  now rewrite equiv_sym.
Qed.

Lemma filter_level_order l :
  Forall P l ->
  (forall z, In z l ->
     StronglySorted (fun a b => stamp a < stamp b) (filter (equiv comp z) l)) ->
  level_order comp stamp l.
Proof.
  induction 1 as [|a l Pa Pl IH]; intros H; [constructor|].
  assert (Eaa : equiv comp a a = true).
  { apply equiv_true. split; now apply (swo_irrefl comp P comp_swo). }
  constructor.
  - apply IH. intros z Hz. specialize (H z (or_intror Hz)).
    cbn [filter] in H. destruct (equiv comp z a); [|exact H].
    now inversion H.
  - specialize (H a (or_introl eq_refl)). cbn [filter] in H.
    rewrite Eaa in H. inversion H as [|? ? _ HF]; subst.
    apply Forall_forall. intros b Hb Eab.
    rewrite Forall_forall in HF. apply HF. apply filter_In. auto.
Qed.

End LevelOrder.

(** A sort that is stable on the ranges of at most [n] elements, applied to
    a range in level order to which an element with the greatest stamp has
    been appended, [n] elements at most in all, gives a range in level
    order. *)
Lemma stable_sort_level_order (S : StdSort) n {A} (comp : A -> A -> bool)
    (stamp : A -> Z) l o :
  stable_up_to n S ->
  (length (l ++ [o]) <= n)%nat ->
  strict_weak_on comp (fun x => In x (l ++ [o])) ->
  level_order comp stamp l ->
  Forall (fun x => stamp x < stamp o) l ->
  level_order comp stamp (std_sort S comp (l ++ [o])).
Proof.
  intros Hst Hlen W Hl Hlt.
  set (P := fun x => In x (l ++ [o])) in *.
  pose proof (std_sort_permutation S _ comp _ W) as HP.
  assert (Hin : Forall P (std_sort S comp (l ++ [o]))).
  { apply Forall_forall. intros x Hx. unfold P.
    eapply Permutation_in; [symmetry; exact HP|exact Hx]. }
  assert (Happ : level_order comp stamp (l ++ [o])).
  { unfold level_order in *. clear -Hl Hlt.
    induction Hl as [|a l Hs IH Ha]; cbn.
    - repeat constructor.
    - inversion Hlt as [|? ? Hao Hlo]; subst. constructor; [now apply IH|].
      apply Forall_app. split; [exact Ha|]. constructor; [|constructor].
      intros _. exact Hao. }
  apply (filter_level_order comp stamp P W); [exact Hin|].
  intros z Hz. rewrite Forall_forall in Hin. specialize (Hin z Hz).
  rewrite (Hst _ comp (l ++ [o]) z Hlen).
  - apply (level_order_filter comp stamp P W); auto.
    apply Forall_forall. auto.
  - apply (strict_weak_on_weaken comp P); [|exact W].
    intros x [Hx| ->]; auto.
Qed.

Lemma equiv_price_greater_eqb a b :
  not_nan a -> not_nan b ->
  equiv price_greater a b = Double.eqb (price a) (price b).
Proof.
  unfold not_nan, price_greater, equiv. intros Ha Hb.
  apply eq_true_iff_eq.
  rewrite andb_true_iff, !negb_true_iff.
  rewrite !DoubleFacts.gtb_false_key, DoubleFacts.eqb_key by assumption.
  by_keys.
Qed.

Lemma equiv_price_less_eqb a b :
  not_nan a -> not_nan b ->
  equiv price_less a b = Double.eqb (price a) (price b).
Proof.
  unfold not_nan, price_less, equiv. intros Ha Hb.
  apply eq_true_iff_eq.
  rewrite andb_true_iff, !negb_true_iff.
  rewrite !DoubleFacts.ltb_false_key, DoubleFacts.eqb_key by assumption.
  by_keys.
Qed.

Lemma eqb_price_sym a b :
  not_nan a -> not_nan b ->
  Double.eqb (price a) (price b) = Double.eqb (price b) (price a).
Proof.
  intros Ha Hb. rewrite <- !equiv_price_greater_eqb by assumption.
  apply equiv_sym.
Qed.

Lemma time_priority_level_order (comp : Order -> Order -> bool) l :
  (forall a b, not_nan a -> not_nan b ->
     equiv comp a b = Double.eqb (price a) (price b)) ->
  nan_free l ->
  (time_priority l <-> level_order comp id l).
Proof.
  intros He Hl. unfold time_priority, level_order. split.
  - apply (StronglySorted_weaken not_nan); [|exact Hl].
    intros a b Ha Hb H E. apply H. now rewrite <- He.
  - apply (StronglySorted_weaken not_nan); [|exact Hl].
    intros a b Ha Hb H E. apply H. now rewrite He.
Qed.

Lemma StronglySorted_front_update (R : Order -> Order -> Prop) b q bs :
  (forall x, R b x -> R (with_quantity b q) x) ->
  StronglySorted R (b :: bs) ->
  StronglySorted R (erase_if_zero (with_quantity b q :: bs)).
Proof.
  intros HR Hs. inversion Hs as [|? ? Hbs Hb]; subst.
  cbn. destruct (q =? 0); [exact Hbs|].
  constructor; [exact Hbs|]. eapply Forall_impl; [|exact Hb]. exact HR.
Qed.

Lemma Forall_front_update (Q : Order -> Prop) b q bs :
  (Q b -> Q (with_quantity b q)) ->
  Forall Q (b :: bs) -> Forall Q (erase_if_zero (with_quantity b q :: bs)).
Proof.
  intros HQ H. inversion H as [|? ? Hb Hbs]; subst.
  cbn. destruct (q =? 0); [exact Hbs|]. constructor; auto.
Qed.

Lemma match_iter_priority s t s1 :
  priority_inv s -> match_iter s = Continue t s1 -> priority_inv s1.
Proof.
  intros (Hv & [Ib Is] & Tb & Ts) H. split; [eapply match_iter_valid; eauto|].
  apply match_iter_continue in H.
  destruct H as (b & bs & a & sells & Eb & Ea & _ & _ & _ & _ & ->).
  rewrite Eb in Ib, Tb. rewrite Ea in Is, Ts.
  unfold ids_below_counter. cbn [buyOrders sellOrders orderIdCounter].
  repeat split.
  - apply Forall_front_update; auto.
  - apply Forall_front_update; auto.
  - apply StronglySorted_front_update; auto.
  - apply StronglySorted_front_update; auto.
Qed.

Lemma match_loop_priority s ts s' :
  match_loop s ts s' -> priority_inv s -> priority_inv s'.
Proof.
  induction 1 as [s Hb|s t s1 ts s2 Hc _ IH]; intros Hv; [exact Hv|].
  apply IH. eapply match_iter_priority; eauto.
Qed.

Lemma StronglySorted_suffix {A} (R : A -> A -> Prop) l1 l2 :
  StronglySorted R (l1 ++ l2) -> StronglySorted R l2.
Proof.
  induction l1 as [|a l1 IH]; cbn; [auto|].
  intros H. apply IH. now inversion H.
Qed.

(** One side of fewer than [n] orders, when a sort that is stable up to [n]
    elements puts a new order with the greatest id in its place. *)
Lemma side_insert_priority (S : StdSort) n (comp : Order -> Order -> bool) l o :
  stable_up_to n S ->
  (length l < n)%nat ->
  strict_weak_on comp not_nan ->
  (forall a b, not_nan a -> not_nan b ->
     equiv comp a b = Double.eqb (price a) (price b)) ->
  nan_free l -> not_nan o ->
  time_priority l ->
  Forall (fun x => id x < id o) l ->
  time_priority (std_sort S comp (l ++ [o])) /\
  last_of_its_price o (std_sort S comp (l ++ [o])).
Proof.
  intros Hst Hlen Hswo He Hl Ho Ht Hid.
  assert (Hall : nan_free (l ++ [o])) by now apply nan_free_snoc.
  assert (W : strict_weak_on comp (fun x => In x (l ++ [o]))).
  { apply (strict_weak_on_weaken comp not_nan); [|exact Hswo].
    unfold nan_free in Hall. rewrite Forall_forall in Hall. exact Hall. }
  pose proof (std_sort_permutation S _ comp _ W) as HP.
  assert (Hsorted : nan_free (std_sort S comp (l ++ [o]))).
  { eapply Permutation_Forall; [exact HP|exact Hall]. }
  assert (HT : time_priority (std_sort S comp (l ++ [o]))).
  { apply (time_priority_level_order comp); auto.
    apply (stable_sort_level_order S n); auto.
    - rewrite length_app. cbn [length]. lia.
    - now apply (time_priority_level_order comp). }
  split; [exact HT|].
  intros l1 l2 E. rewrite E in HP, HT, Hsorted.
  assert (HP' : Permutation l (l1 ++ l2)).
  { apply Permutation_cons_app_inv with (a := o).
    rewrite <- HP. apply Permutation_cons_append. }
  unfold time_priority in HT. apply StronglySorted_suffix in HT.
  inversion HT as [|? ? _ HF]; subst.
  apply Forall_forall. intros x Hx.
  destruct (Double.eqb (price x) (price o)) eqn:Ex; [exfalso|reflexivity].
  unfold nan_free in Hsorted. rewrite Forall_forall in HF, Hid, Hsorted.
  assert (Hxn : not_nan x).
  { apply Hsorted. apply in_or_app. right. now right. }
  rewrite (eqb_price_sym x o Hxn Ho) in Ex.
  specialize (HF x Hx Ex).
  assert (Hxl : In x l).
  { eapply Permutation_in; [symmetry; exact HP'|].
    apply in_or_app. now right. }
  specialize (Hid x Hxl). lia.
Qed.

Lemma insertOrder_priority (S : StdSort) n s isBuy price quantity order s1 :
  stable_up_to n S -> priority_inv s ->
  (length (own_side isBuy s) < n)%nat ->
  Double.gtb price Double.zero = true -> 0 < quantity <= INT_MAX ->
  insertOrder S s isBuy price quantity = Some (order, s1) ->
  priority_inv s1 /\ last_of_its_price order (own_side isBuy s1).
Proof.
  intros Hst (Hv & [Ib Is] & Tb & Ts) Hlen Hp Hq Hi.
  pose proof (insertOrder_valid _ _ _ _ _ _ _ Hv Hp Hq Hi) as Hv1.
  apply insertOrder_inv in Hi. destruct Hi as (_ & -> & Hc & H).
  set (order := mkOrder _ _ _ _) in *.
  assert (Ho : not_nan order) by now apply DoubleFacts.gtb_zero_not_nan.
  destruct Hv as (Vb & Vs & _).
  apply valid_orders_nan_free in Vb, Vs.
  unfold priority_inv, ids_below_counter. rewrite Hc.
  assert (Hlt : forall l, Forall (fun o => id o < orderIdCounter s) l ->
                          Forall (fun o => id o < orderIdCounter s + 1) l).
  { intros l Hl. eapply Forall_impl; [|exact Hl]. cbn. lia. }
  assert (Hsnoc : forall l, Forall (fun o => id o < orderIdCounter s) l ->
            Forall (fun o => id o < orderIdCounter s + 1) (l ++ [order])).
  { intros l Hl. apply Forall_app. split; [now apply Hlt|].
    constructor; [cbn; lia|constructor]. }
  destruct isBuy; destruct H as [E1 E2]; cbn [own_side] in Hlen |- *;
    rewrite E1, E2.
  - destruct (side_insert_priority S n price_greater (buyOrders s) order Hst
                Hlen price_greater_swo equiv_price_greater_eqb Vb Ho Tb Ib)
      as [HT HL].
    pose proof (std_sort_permutation S _ price_greater _
                  (price_greater_swo_on _ (nan_free_snoc _ _ Vb Ho))) as HP.
    split; [split; [exact Hv1|]|exact HL].
    repeat split; auto.
    eapply Permutation_Forall; [exact HP|]. now apply Hsnoc.
  - destruct (side_insert_priority S n price_less (sellOrders s) order Hst
                Hlen price_less_swo equiv_price_less_eqb Vs Ho Ts Is)
      as [HT HL].
    pose proof (std_sort_permutation S _ price_less _
                  (price_less_swo_on _ (nan_free_snoc _ _ Vs Ho))) as HP.
    split; [split; [exact Hv1|]|exact HL].
    repeat split; auto.
    eapply Permutation_Forall; [exact HP|]. now apply Hsnoc.
Qed.

Lemma submit_priority (S : StdSort) n s r p :
  stable_up_to n S -> priority_inv s ->
  (length (own_side (req_isBuy r) s) < n)%nat ->
  valid_request r -> submit S s r = Some p ->
  priority_inv (placed_book p).
Proof.
  intros Hst Hinv Hlen [Hp Hq] H. apply placeOrder_inv in H.
  destruct H as (order & s1 & Hi & Hl & _).
  apply (match_loop_priority _ _ _ Hl).
  now apply (insertOrder_priority S n s (req_isBuy r) (req_price r)
               (req_quantity r) order s1).
Qed.

Lemma new_book_priority : priority_inv ExchangeSimulator_new.
Proof.
  split; [apply new_book_valid|]. repeat split; constructor.
Qed.

Lemma run_priority (S : StdSort) n reqs :
  stable_up_to n S ->
  forall s outs s',
    priority_inv s -> Forall valid_request reqs ->
    sorts_at_most n S s reqs = true ->
    run S s reqs = Some (outs, s') -> priority_inv s'.
Proof.
  intros Hst. induction reqs as [|r reqs IH]; intros s outs s' Hs Hr Hn H.
  - cbn in H. injection H as <- <-. exact Hs.
  - cbn in H. inversion Hr as [|? ? Hr1 Hr2]; subst.
    cbn [sorts_at_most] in Hn. apply andb_true_iff in Hn.
    destruct Hn as [Hlen Hn]. apply Nat.ltb_lt in Hlen.
    destruct (submit S s r) as [p|] eqn:E; [|discriminate].
    destruct (run S (placed_book p) reqs) as [[outs1 s1]|] eqn:E1;
      [|discriminate].
    injection H as <- <-.
    apply (IH (placed_book p) outs1 s1); auto.
    now apply (submit_priority S n s r p).
Qed.

(** Time priority under a sort that is stable up to [n] elements, while
    no call sorts more than [n]. *)
Lemma time_priority_while_stable (S : StdSort) n reqs outs s :
  stable_up_to n S ->
  Forall valid_request reqs ->
  sorts_at_most n S ExchangeSimulator_new reqs = true ->
  run S ExchangeSimulator_new reqs = Some (outs, s) ->
  time_priority (buyOrders s) /\ time_priority (sellOrders s) /\
  forall r order s1,
    valid_request r ->
    (length (own_side (req_isBuy r) s) < n)%nat ->
    insertOrder S s (req_isBuy r) (req_price r) (req_quantity r)
      = Some (order, s1) ->
    last_of_its_price order (own_side (req_isBuy r) s1).
Proof.
  intros Hst Hr Hn H.
  assert (Hinv : priority_inv s).
  { apply (run_priority S n reqs Hst ExchangeSimulator_new outs s); auto.
    apply new_book_priority. }
  split; [apply Hinv|]. split; [apply Hinv|].
  intros r order s1 [Hp Hq] Hlen Hi.
  now apply (insertOrder_priority S n s (req_isBuy r) (req_price r)
               (req_quantity r) order s1 Hst Hinv Hlen Hp Hq).
Qed.

Lemma match_loop_lengths s ts s' :
  match_loop s ts s' ->
  (length (buyOrders s') <= length (buyOrders s))%nat /\
  (length (sellOrders s') <= length (sellOrders s))%nat.
Proof.
  induction 1 as [s _|s t s1 ts s2 Hc _ IH]; [lia|].
  apply match_iter_continue in Hc.
  destruct Hc as (b & bs & a & sells & Eb & Ea & _ & _ & _ & _ & ->).
  cbn [buyOrders sellOrders erase_if_zero with_quantity quantity] in IH.
  rewrite Eb, Ea. cbn [length].
  destruct (quantity b - Z.min (quantity b) (quantity a) =? 0),
           (quantity a - Z.min (quantity b) (quantity a) =? 0);
    cbn [length] in IH; lia.
Qed.

Lemma submit_lengths (S : StdSort) s r p :
  book_valid s -> valid_request r -> submit S s r = Some p ->
  (length (buyOrders (placed_book p)) + length (sellOrders (placed_book p))
   <= Datatypes.S (length (buyOrders s) + length (sellOrders s)))%nat.
Proof.
  intros (Vb & Vs & _) [Hp Hq] H. apply placeOrder_inv in H.
  destruct H as (order & s1 & Hi & Hl & _).
  apply match_loop_lengths in Hl.
  apply insertOrder_inv in Hi. destruct Hi as (_ & -> & _ & Hside).
  set (order := mkOrder _ _ _ _) in *.
  assert (Ho : not_nan order) by now apply DoubleFacts.gtb_zero_not_nan.
  apply valid_orders_nan_free in Vb, Vs.
  destruct (req_isBuy r); destruct Hside as [E1 E2]; rewrite E1, E2 in Hl.
  - rewrite <- (Permutation_length
                  (std_sort_permutation S _ price_greater _
                     (price_greater_swo_on _ (nan_free_snoc _ _ Vb Ho))))
      in Hl.
    rewrite length_app in Hl. cbn [length] in Hl. lia.
  - rewrite <- (Permutation_length
                  (std_sort_permutation S _ price_less _
                     (price_less_swo_on _ (nan_free_snoc _ _ Vs Ho))))
      in Hl.
    rewrite length_app in Hl. cbn [length] in Hl. lia.
Qed.

(** On a book and a sequence of valid calls that count [n] orders and calls
    at most together, no call sorts more than [n] orders. *)
Lemma short_runs_sort_at_most (S : StdSort) n reqs : forall s,
  book_valid s -> Forall valid_request reqs ->
  (length (buyOrders s) + length (sellOrders s) + length reqs <= n)%nat ->
  sorts_at_most n S s reqs = true.
Proof.
  induction reqs as [|r reqs IH]; intros s Hv Hr Hn; [reflexivity|].
  inversion Hr as [|? ? Hr1 Hr2]; subst.
  cbn [sorts_at_most length] in *. apply andb_true_iff. split.
  - apply Nat.ltb_lt. unfold own_side. destruct (req_isBuy r); lia.
  - destruct (submit S s r) as [p|] eqn:E; [|reflexivity].
    apply IH; [|exact Hr2|].
    + now destruct (submit_valid S s r p Hv Hr1 E).
    + pose proof (submit_lengths S s r p Hv Hr1 E). lia.
Qed.

(** In particular the orders of a price level rest in the order of their
    ids after any sequence of at most 16 valid calls on the new book. *)
Lemma time_priority_sixteen_calls reqs outs s :
  Forall valid_request reqs -> (length reqs <= 16)%nat ->
  run libstdcxx_sort ExchangeSimulator_new reqs = Some (outs, s) ->
  time_priority (buyOrders s) /\ time_priority (sellOrders s).
Proof.
  intros Hr Hlen H.
  destruct (time_priority_while_stable libstdcxx_sort 16 reqs outs s
              libstdcxx_sort_stable_up_to_16 Hr) as (Hb & Hs & _); auto.
  apply short_runs_sort_at_most; [apply new_book_valid|exact Hr|exact Hlen].
Qed.

(** C6, as the code and the GNU library have it.  Time priority holds while
    no side holds more than 16 orders.  With the [std::sort] of the GNU
    library, after a sequence of valid submissions each of which finds
    fewer than 16 orders on the side of its order, two resting orders of one
    side with the same price stand in the order of their ids; and a further
    valid order that finds fewer than 16 orders on its side is put, by the
    insertion step of [placeOrder], behind every resting order of its
    price. *)
Theorem time_priority_up_to_16_orders reqs outs s :
  Forall valid_request reqs ->
  sorts_at_most 16 libstdcxx_sort ExchangeSimulator_new reqs = true ->
  run libstdcxx_sort ExchangeSimulator_new reqs = Some (outs, s) ->
  time_priority (buyOrders s) /\ time_priority (sellOrders s) /\
  forall r order s1,
    valid_request r ->
    (length (own_side (req_isBuy r) s) < 16)%nat ->
    insertOrder libstdcxx_sort s (req_isBuy r) (req_price r) (req_quantity r)
      = Some (order, s1) ->
    last_of_its_price order (own_side (req_isBuy r) s1).
Proof.
  intros Hr Hn H.
  exact (time_priority_while_stable libstdcxx_sort 16 reqs outs s
           libstdcxx_sort_stable_up_to_16 Hr Hn H).
Qed.

Lemma run_sixteen_bids :
  run libstdcxx_sort ExchangeSimulator_new sixteen_bids_at_100
  = Some (sixteen_bids_outputs, sixteen_bids_book).
Proof. vm_compute. reflexivity. Qed.

Lemma sixteen_bids_sorts_at_most_16 :
  sorts_at_most 16 libstdcxx_sort ExchangeSimulator_new sixteen_bids_at_100
  = true.
Proof. vm_compute. reflexivity. Qed.

(** Sixteen bids at the same price rest in the order of their ids. *)
Lemma time_priority_sixteen_bids :
  time_priority (buyOrders sixteen_bids_book) /\
  time_priority (sellOrders sixteen_bids_book) /\
  forall r order s1,
    valid_request r ->
    (length (own_side (req_isBuy r) sixteen_bids_book) < 16)%nat ->
    insertOrder libstdcxx_sort sixteen_bids_book
                (req_isBuy r) (req_price r) (req_quantity r)
      = Some (order, s1) ->
    last_of_its_price order (own_side (req_isBuy r) s1).
Proof.
  exact (time_priority_up_to_16_orders sixteen_bids_at_100
           sixteen_bids_outputs sixteen_bids_book
           sixteen_bids_at_100_valid sixteen_bids_sorts_at_most_16
           run_sixteen_bids).
Defined.

(** ** Valid calls have a result *)

(** A valid order placed on a well-formed book whose counter can still be
    incremented has a result: no signed overflow, and the loop ends. *)
Lemma submit_defined (S : StdSort) s r :
  book_valid s -> valid_request r ->
  INT_MIN <= orderIdCounter s < INT_MAX ->
  exists p, submit S s r = Some p.
Proof.
  intros Hv [Hp Hq] Hc. unfold submit, placeOrder.
  destruct (insertOrder S s (req_isBuy r) (req_price r) (req_quantity r))
    as [[order s1]|] eqn:Hi.
  - pose proof (insertOrder_valid _ _ _ _ _ _ _ Hv Hp Hq Hi) as Hv1.
    apply book_valid_positive in Hv1.
    destruct (match_loop_terminates
                (Datatypes.S (Z.to_nat (resting_quantity s1))) s1 Hv1)
      as (ts & s2 & Hl); [lia|].
    apply matchOrders_loop in Hl. rewrite Hl. eauto.
  - rewrite insertOrder_some in Hi by lia. discriminate.
Qed.

(** Fewer than [2^31] valid calls on the new book all have a result. *)
Lemma run_defined (S : StdSort) reqs : forall s,
  book_valid s -> Forall valid_request reqs ->
  INT_MIN <= orderIdCounter s ->
  orderIdCounter s + Z.of_nat (length reqs) <= INT_MAX ->
  exists outs s', run S s reqs = Some (outs, s').
Proof.
  induction reqs as [|r reqs IH]; intros s Hv Hr Hlo Hhi; cbn [run].
  - eauto.
  - inversion Hr as [|? ? Hr1 Hr2]; subst. cbn [length] in Hhi.
    destruct (submit_defined S s r Hv Hr1) as [p Hp]; [lia|].
    rewrite Hp.
    destruct (submit_valid S s r p Hv Hr1 Hp) as [Hv' _].
    destruct (submit_id_counter S s r p Hp) as [_ Hc].
    destruct (IH (placed_book p) Hv' Hr2) as (outs & s' & Hrun); [lia|lia|].
    rewrite Hrun. eauto.
Qed.

(** * Further properties of the exchange simulator *)

(** ** A matched book is a fixed point of [matchOrders] *)

(** X1.  [matchOrders] is a public method: on the book it leaves, a second call
    prints nothing and changes nothing. *)
Theorem matchOrders_twice s ts s' :
  matchOrders s = Some (ts, s') -> matchOrders s' = Some ([], s').
Proof.
  intros H. apply matchOrders_loop in H. apply matchOrders_loop.
  constructor. eapply match_loop_final; eauto.
Qed.

Lemma matchOrders_crossed_book :
  matchOrders crossed_book
  = Some ([ mkTrade 75 (Double.of_Z 100) ], book_after_third_order).
Proof. vm_compute. reflexivity. Qed.

Lemma matchOrders_twice_crossed_book :
  matchOrders book_after_third_order = Some ([], book_after_third_order).
Proof.
  exact (matchOrders_twice crossed_book [ mkTrade 75 (Double.of_Z 100) ]
           book_after_third_order matchOrders_crossed_book).
Defined.

(** ** Trades and erased orders *)

Definition resting_orders (s : ExchangeSimulator) : nat :=
  (length (buyOrders s) + length (sellOrders s))%nat.

Lemma erase_if_zero_length o v :
  length (erase_if_zero (o :: v)) = length v \/
  length (erase_if_zero (o :: v)) = Datatypes.S (length v).
Proof. cbn. destruct (quantity o =? 0); auto. Qed.

Lemma match_iter_order_count s t s1 :
  match_iter s = Continue t s1 ->
  (resting_orders s1 + 1 <= resting_orders s <= resting_orders s1 + 2)%nat.
Proof.
  intros H. pose proof (match_iter_fewer_orders s t s1 H) as Hlt.
  apply match_iter_continue in H.
  destruct H as (b & bs & a & sells & Eb & Ea & _ & _ & _ & _ & ->).
  unfold resting_orders in *. rewrite Eb, Ea in *.
  cbn [buyOrders sellOrders] in *.
  destruct (erase_if_zero_length (with_quantity b
              (quantity b - Z.min (quantity b) (quantity a))) bs) as [E1|E1],
           (erase_if_zero_length (with_quantity a
              (quantity a - Z.min (quantity b) (quantity a))) sells) as [E2|E2];
    rewrite E1, E2 in *; cbn [length] in *; lia.
Qed.

(** X2.  Every trade printed by [matchOrders] erases one or two resting orders:
    the number of trades is at most the number of orders erased, which is
    at most twice the number of trades. *)
Theorem trades_erase_orders s ts s' :
  matchOrders s = Some (ts, s') ->
  (length ts + resting_orders s' <= resting_orders s
   <= 2 * length ts + resting_orders s')%nat.
Proof.
  intros H. apply matchOrders_loop in H.
  induction H as [s Hb|s t s1 ts s2 Hc _ IH]; cbn [length]; [lia|].
  apply match_iter_order_count in Hc. lia.
Qed.

Lemma trades_erase_orders_crossed_book :
  (length [ mkTrade 75 (Double.of_Z 100) ]
     + resting_orders book_after_third_order
   <= resting_orders crossed_book
   <= 2 * length [ mkTrade 75 (Double.of_Z 100) ]
     + resting_orders book_after_third_order)%nat.
Proof.
  exact (trades_erase_orders crossed_book [ mkTrade 75 (Double.of_Z 100) ]
           book_after_third_order matchOrders_crossed_book).
Defined.

(** ** What rests in the book after valid submissions *)

(** A property of the orders of each side that the loop keeps: it only
    rewrites the quantity of a front order, or erases it. *)
Lemma match_loop_Forall (Qb Qs : Order -> Prop) s ts s' :
  (forall o q, Qb o -> Qb (with_quantity o q)) ->
  (forall o q, Qs o -> Qs (with_quantity o q)) ->
  match_loop s ts s' ->
  Forall Qb (buyOrders s) -> Forall Qs (sellOrders s) ->
  Forall Qb (buyOrders s') /\ Forall Qs (sellOrders s').
Proof.
  intros Hb Hs Hl. induction Hl as [s _|s t s1 ts s2 Hc _ IH]; [auto|].
  intros Fb Fs. apply match_iter_continue in Hc.
  destruct Hc as (b & bs & a & sells & Eb & Ea & _ & _ & _ & _ & ->).
  rewrite Eb in Fb. rewrite Ea in Fs.
  apply IH; cbn [buyOrders sellOrders]; apply Forall_front_update; auto.
Qed.

(** The same for the whole call, when the sort is given a range it can
    sort. *)
Lemma submit_Forall (S : StdSort) (Qb Qs : Order -> Prop) s r p :
  (forall o q, Qb o -> Qb (with_quantity o q)) ->
  (forall o q, Qs o -> Qs (with_quantity o q)) ->
  book_valid s -> valid_request r -> submit S s r = Some p ->
  Forall Qb (buyOrders s) -> Forall Qs (sellOrders s) ->
  (if req_isBuy r
   then Qb (mkOrder (orderIdCounter s) true (req_price r) (req_quantity r))
   else Qs (mkOrder (orderIdCounter s) false (req_price r) (req_quantity r))) ->
  Forall Qb (buyOrders (placed_book p)) /\
  Forall Qs (sellOrders (placed_book p)).
Proof.
  intros Hb Hs (Vb & Vs & _) [Hp Hq] H Fb Fs Hnew.
  apply placeOrder_inv in H. destruct H as (order & s1 & Hi & Hl & _).
  apply (match_loop_Forall Qb Qs _ _ _ Hb Hs Hl).
  - apply insertOrder_inv in Hi. destruct Hi as (_ & -> & _ & H).
    apply valid_orders_nan_free in Vb.
    apply DoubleFacts.gtb_zero_not_nan in Hp.
    destruct (req_isBuy r); destruct H as [E1 E2]; [|now rewrite E2].
    rewrite E1. eapply Permutation_Forall.
    + apply std_sort_permutation. apply price_greater_swo_on.
      now apply nan_free_snoc.
    + apply Forall_app. split; [exact Fb|]. now constructor.
  - apply insertOrder_inv in Hi. destruct Hi as (_ & -> & _ & H).
    apply valid_orders_nan_free in Vs.
    apply DoubleFacts.gtb_zero_not_nan in Hp.
    destruct (req_isBuy r); destruct H as [E1 E2]; [now rewrite E2|].
    rewrite E1. eapply Permutation_Forall.
    + apply std_sort_permutation. apply price_less_swo_on.
      now apply nan_free_snoc.
    + apply Forall_app. split; [exact Fs|]. now constructor.
Qed.

(** X3.  After every sequence of valid submissions each resting bid is a buy
    order and each resting ask a sell order, and every resting order has a
    strictly positive price and a strictly positive quantity: an order left
    with nothing does not rest. *)
Theorem resting_orders_well_formed (S : StdSort) reqs outs s :
  Forall valid_request reqs ->
  run S ExchangeSimulator_new reqs = Some (outs, s) ->
  Forall (fun o => isBuy o = true /\
                   Double.gtb (price o) Double.zero = true /\
                   0 < quantity o <= INT_MAX) (buyOrders s) /\
  Forall (fun o => isBuy o = false /\
                   Double.gtb (price o) Double.zero = true /\
                   0 < quantity o <= INT_MAX) (sellOrders s).
Proof.
  intros Hr H.
  pose proof (run_book_valid S reqs outs s Hr H) as (Vb & Vs & _).
  assert (K : Forall (fun o => isBuy o = true) (buyOrders s) /\
              Forall (fun o => isBuy o = false) (sellOrders s)).
  { cut (book_valid s /\
         Forall (fun o => isBuy o = true) (buyOrders s) /\
         Forall (fun o => isBuy o = false) (sellOrders s)); [tauto|].
    apply (run_invariant S (fun s => book_valid s /\
             Forall (fun o => isBuy o = true) (buyOrders s) /\
             Forall (fun o => isBuy o = false) (sellOrders s)))
      with (reqs := reqs) (s := ExchangeSimulator_new) (outs := outs); auto.
    - intros s0 r p (Hv & Fb & Fs) Hreq Hp. split.
      + now apply (submit_valid S s0 r p).
      + apply (submit_Forall S _ _ s0 r p); auto.
        now destruct (req_isBuy r).
    - split; [apply new_book_valid|]. split; constructor. }
  destruct K as [Kb Ks]. unfold valid_order in Vb, Vs.
  rewrite Forall_forall in Vb, Vs, Kb, Ks.
  split; apply Forall_forall; intros o Ho; auto.
Qed.

Lemma resting_orders_well_formed_main :
  Forall (fun o => isBuy o = true /\
                   Double.gtb (price o) Double.zero = true /\
                   0 < quantity o <= INT_MAX) (buyOrders main_book) /\
  Forall (fun o => isBuy o = false /\
                   Double.gtb (price o) Double.zero = true /\
                   0 < quantity o <= INT_MAX) (sellOrders main_book).
Proof.
  exact (resting_orders_well_formed libstdcxx_sort main_orders
           main_outputs main_book main_orders_valid run_main_libstdcxx).
Defined.

(** ** The ids of the resting orders *)

Definition resting_ids (s : ExchangeSimulator) : list Z :=
  map id (buyOrders s) ++ map id (sellOrders s).

Lemma erase_if_zero_ids b q bs :
  map id (erase_if_zero (with_quantity b q :: bs)) = map id bs \/
  map id (erase_if_zero (with_quantity b q :: bs)) = id b :: map id bs.
Proof. cbn. destruct (q =? 0); auto. Qed.

Lemma match_iter_ids_NoDup s t s1 :
  match_iter s = Continue t s1 -> NoDup (resting_ids s) ->
  NoDup (resting_ids s1).
Proof.
  intros H. apply match_iter_continue in H.
  destruct H as (b & bs & a & sells & Eb & Ea & _ & _ & _ & _ & ->).
  unfold resting_ids. rewrite Eb, Ea. cbn [buyOrders sellOrders].
  set (qb := quantity b - _). set (qa := quantity a - _).
  intros N.
  assert (N1 : NoDup (map id (erase_if_zero (with_quantity b qb :: bs))
                      ++ map id (a :: sells))).
  { destruct (erase_if_zero_ids b qb bs) as [-> | ->]; [|exact N].
    cbn [map app] in N. now inversion N. }
  destruct (erase_if_zero_ids a qa sells) as [-> | ->]; [|exact N1].
  cbn [map] in N1. now apply NoDup_remove_1 in N1.
Qed.

Lemma match_loop_ids_NoDup s ts s' :
  match_loop s ts s' -> NoDup (resting_ids s) -> NoDup (resting_ids s').
Proof.
  induction 1 as [|s t s1 ts s2 Hc _ IH]; [auto|].
  intros N. apply IH. eapply match_iter_ids_NoDup; eauto.
Qed.

Lemma insertOrder_ids (S : StdSort) s isBuy price quantity order s1 :
  nan_free (buyOrders s) -> nan_free (sellOrders s) ->
  Double.is_nan price = false ->
  insertOrder S s isBuy price quantity = Some (order, s1) ->
  Permutation (orderIdCounter s :: resting_ids s) (resting_ids s1).
Proof.
  intros Nb Ns Hp Hi. apply insertOrder_inv in Hi.
  destruct Hi as (_ & -> & _ & H). unfold resting_ids.
  set (order := mkOrder _ _ _ _) in *.
  destruct isBuy; destruct H as [-> ->].
  - pose proof (std_sort_permutation S _ price_greater _
                  (price_greater_swo_on _ (nan_free_snoc _ order Nb Hp))) as HP.
    apply (Permutation_map id) in HP. rewrite <- HP, map_app. cbn [map id].
    rewrite <- app_assoc. cbn [app].
    apply Permutation_middle.
  - pose proof (std_sort_permutation S _ price_less _
                  (price_less_swo_on _ (nan_free_snoc _ order Ns Hp))) as HP.
    apply (Permutation_map id) in HP. rewrite <- HP, map_app. cbn [map id].
    rewrite app_assoc.
    change (orderIdCounter s :: (map id (buyOrders s) ++ map id (sellOrders s)))
      with ([orderIdCounter s] ++ (map id (buyOrders s) ++ map id (sellOrders s))).
    apply Permutation_app_comm.
Qed.

(** The ids of the book: all distinct, all below the counter, which counts
    the calls. *)
Definition ids_inv (n : nat) (s : ExchangeSimulator) : Prop :=
  orderIdCounter s = Z.of_nat n /\
  NoDup (resting_ids s) /\
  Forall (fun i => 0 <= i < orderIdCounter s) (resting_ids s).

Lemma submit_ids_inv (S : StdSort) n s r p :
  book_valid s -> valid_request r -> submit S s r = Some p ->
  ids_inv n s -> ids_inv (Datatypes.S n) (placed_book p).
Proof.
  intros (Vb & Vs & _) [Hp Hq] H (Hc & Hn & Hlt).
  destruct (submit_id_counter S s r p H) as [_ Hc'].
  apply placeOrder_inv in H. destruct H as (order & s1 & Hi & Hl & _).
  apply valid_orders_nan_free in Vb, Vs.
  apply DoubleFacts.gtb_zero_not_nan in Hp.
  pose proof (insertOrder_ids S s _ _ _ order s1 Vb Vs Hp Hi) as HP.
  assert (N1 : NoDup (resting_ids s1)).
  { eapply Permutation_NoDup; [exact HP|]. constructor; [|exact Hn].
    intros Hin. rewrite Forall_forall in Hlt. specialize (Hlt _ Hin). lia. }
  assert (F1 : Forall (fun i => 0 <= i < orderIdCounter s + 1) (resting_ids s1)).
  { eapply Permutation_Forall; [exact HP|]. constructor; [lia|].
    eapply Forall_impl; [|exact Hlt]. cbn. lia. }
  split; [rewrite Hc', Hc; lia|]. split.
  - now apply (match_loop_ids_NoDup _ _ _ Hl).
  - rewrite Hc'. unfold resting_ids in *. apply Forall_app in F1.
    destruct F1 as [Fb Fs]. rewrite Forall_map in Fb, Fs.
    pose proof (match_loop_Forall
                  (fun o => 0 <= id o < orderIdCounter s + 1)
                  (fun o => 0 <= id o < orderIdCounter s + 1)
                  s1 _ _ (fun o q H => H) (fun o q H => H) Hl Fb Fs) as [Gb Gs].
    apply Forall_app. rewrite !Forall_map. auto.
Qed.

(** X4.  After every sequence of valid submissions the counter is the number of
    calls made, and the resting orders, bids and asks together, carry
    pairwise distinct ids, all of them ids handed out: non-negative and
    below the counter. *)
Theorem resting_ids_distinct (S : StdSort) reqs outs s :
  Forall valid_request reqs ->
  run S ExchangeSimulator_new reqs = Some (outs, s) ->
  orderIdCounter s = Z.of_nat (length reqs) /\
  NoDup (map id (buyOrders s) ++ map id (sellOrders s)) /\
  Forall (fun i => 0 <= i < orderIdCounter s)
         (map id (buyOrders s) ++ map id (sellOrders s)).
Proof.
  intros Hr H. change (ids_inv (length reqs) s).
  assert (G : forall reqs n s0 outs s,
             Forall valid_request reqs -> book_valid s0 -> ids_inv n s0 ->
             run S s0 reqs = Some (outs, s) ->
             ids_inv (n + length reqs) s).
  { clear. induction reqs as [|r reqs IH]; intros n s0 outs s Hr Hv Hi H.
    - cbn in H. injection H as <- <-. now rewrite Nat.add_0_r.
    - cbn in H. inversion Hr as [|? ? Hr1 Hr2]; subst.
      destruct (submit S s0 r) as [p|] eqn:E; [|discriminate].
      destruct (run S (placed_book p) reqs) as [[outs1 s1]|] eqn:E1;
        [|discriminate].
      injection H as <- <-. cbn [length]. rewrite Nat.add_succ_r.
      apply (IH (Datatypes.S n) (placed_book p) outs1); auto.
      + now apply (submit_valid S s0 r p).
      + now apply (submit_ids_inv S n s0 r p). }
  apply (G reqs 0%nat ExchangeSimulator_new outs s); auto.
  - apply new_book_valid.
  - repeat split; constructor.
Qed.

Lemma resting_ids_distinct_main :
  orderIdCounter main_book = Z.of_nat (length main_orders) /\
  NoDup (map id (buyOrders main_book) ++ map id (sellOrders main_book)) /\
  Forall (fun i => 0 <= i < orderIdCounter main_book)
         (map id (buyOrders main_book) ++ map id (sellOrders main_book)).
Proof.
  exact (resting_ids_distinct libstdcxx_sort main_orders
           main_outputs main_book main_orders_valid run_main_libstdcxx).
Defined.

(** ** What an incoming order trades *)

Lemma double_geb_leb x y : Double.geb x y = true -> Double.leb y x = true.
Proof.
  intros H.
  assert (Hx : Double.is_nan x = false) by (destruct x; [reflexivity..|discriminate|reflexivity]).
  assert (Hy : Double.is_nan y = false) by (destruct y; try reflexivity; destruct x; discriminate).
  apply DoubleFacts.geb_key in H; auto. apply DoubleFacts.leb_key; auto.
Qed.

(** In a well-formed book that does not cross, every bid is priced below
    every ask. *)
Lemma bids_below_asks s :
  book_valid s -> non_crossing s ->
  forall b a, In b (buyOrders s) -> In a (sellOrders s) ->
              Double.ltb (price b) (price a) = true.
Proof.
  intros (Vb & Vs & Sb & Ss) Hn b a Hb Ha. unfold non_crossing in Hn.
  assert (Nb : not_nan b).
  { apply valid_order_not_nan. rewrite Forall_forall in Vb. auto. }
  assert (Na : not_nan a).
  { apply valid_order_not_nan. rewrite Forall_forall in Vs. auto. }
  destruct (buyOrders s) as [|b0 bs]; [destruct Hb|].
  destruct (sellOrders s) as [|a0 sells]; [destruct Ha|].
  assert (Nb0 : not_nan b0).
  { apply valid_order_not_nan. now inversion Vb. }
  assert (Na0 : not_nan a0).
  { apply valid_order_not_nan. now inversion Vs. }
  assert (Hb0 : Double.gtb (price b) (price b0) = false).
  { destruct Hb as [<-|Hb].
    - apply DoubleFacts.gtb_false_key; auto. by_keys.
    - inversion Sb as [|? ? _ HF]; subst. rewrite Forall_forall in HF.
      apply (HF b Hb). }
  assert (Ha0 : Double.ltb (price a) (price a0) = false).
  { destruct Ha as [<-|Ha].
    - apply DoubleFacts.ltb_false_key; auto. by_keys.
    - inversion Ss as [|? ? _ HF]; subst. rewrite Forall_forall in HF.
      apply (HF a Ha). }
  unfold not_nan in *.
  apply DoubleFacts.gtb_false_key in Hb0; auto.
  apply DoubleFacts.ltb_false_key in Ha0; auto.
  apply DoubleFacts.ltb_key in Hn; auto.
  apply DoubleFacts.ltb_key; auto. by_keys.
Qed.

Lemma match_loop_break_inv s ts s' :
  match_iter s = Break -> match_loop s ts s' -> ts = [] /\ s' = s.
Proof.
  intros Hb H. inversion H; subst; [auto|congruence].
Qed.

Lemma run_valid_non_crossing (S : StdSort) reqs outs s :
  Forall valid_request reqs ->
  run S ExchangeSimulator_new reqs = Some (outs, s) ->
  book_valid s /\ non_crossing s.
Proof.
  intros Hr H.
  apply (run_invariant S (fun s => book_valid s /\ non_crossing s))
    with (reqs := reqs) (s := ExchangeSimulator_new) (outs := outs); auto.
  - intros s0 r p [Hv _] Hreq Hp. now apply (submit_valid S s0 r p).
  - split; [apply new_book_valid|exact I].
Qed.

(** [l'] is [l] consumed from the front: some leading orders are gone, and
    the next one may have lost part of its quantity. *)
Definition front_consumed (l l' : list Order) : Prop :=
  exists pre post,
    l = pre ++ post /\
    (l' = post \/
     exists a post' q',
       post = a :: post' /\ 0 < q' < quantity a /\
       l' = with_quantity a q' :: post').

Lemma front_consumed_refl l : front_consumed l l.
Proof. exists [], l. auto. Qed.

Lemma front_consumed_cons a l l' :
  front_consumed l l' -> front_consumed (a :: l) l'.
Proof.
  intros (pre & post & -> & H). exists (a :: pre), post. auto.
Qed.

Lemma front_consumed_front a q l :
  0 <= q < quantity a ->
  front_consumed (a :: l) (erase_if_zero (with_quantity a q :: l)).
Proof.
  intros Hq. cbn. destruct (Z.eqb_spec q 0).
  - exists [a], l. auto.
  - exists [], (a :: l). split; [reflexivity|]. right.
    exists a, l, q. repeat split; auto; lia.
Qed.

(** The loop when the front bid is the incoming buy order [o], with [q]
    units left, and the other bids are below every ask. *)
Lemma buy_loop s ts s' :
  match_loop s ts s' ->
  forall o q rest,
    buyOrders s = with_quantity o q :: rest ->
    0 < q <= INT_MAX ->
    Forall (fun a => 0 < quantity a <= INT_MAX) (sellOrders s) ->
    (forall b a, In b rest -> In a (sellOrders s) ->
                 Double.ltb (price b) (price a) = true) ->
    Forall (fun t => 0 < trade_quantity t /\
                     Double.leb (trade_price t) (price o) = true) ts /\
    traded_quantity ts <= q /\
    buyOrders s' = (if traded_quantity ts =? q then rest
                    else with_quantity o (q - traded_quantity ts) :: rest) /\
    front_consumed (sellOrders s) (sellOrders s').
Proof.
  induction 1 as [s Hb|s t s1 ts s2 Hc Hl IH]; intros o q rest Eb Hq Fs Hlt.
  - unfold traded_quantity. cbn [fold_right].
    split; [constructor|]. split; [lia|].
    split; [|apply front_consumed_refl].
    destruct (Z.eqb_spec 0 q); [lia|]. now rewrite Z.sub_0_r.
  - apply match_iter_continue in Hc.
    destruct Hc as (b & bs & a & sells & Eb' & Ea & G & _ & _ & -> & ->).
    rewrite Eb in Eb'. injection Eb' as <- <-. rewrite Ea in Fs, Hlt.
    cbn [price quantity with_quantity] in *.
    inversion Fs as [|? ? Ha Fsells]; subst.
    set (m := Z.min q (quantity a)) in *.
    assert (Hm : 0 < m <= q) by (unfold m; lia).
    assert (Ht : 0 < m /\ Double.leb (price a) (price o) = true).
    { split; [lia|]. now apply double_geb_leb. }
    unfold traded_quantity. cbn [fold_right trade_quantity trade_price].
    fold (traded_quantity ts).
    destruct (Z.eq_dec m q) as [E|N].
    + (* the incoming order is used up *)
      match type of Hl with
      | match_loop ?x _ _ => assert (Hn : match_iter x = Break)
      end.
      { apply non_crossing_break. unfold non_crossing.
        cbn [buyOrders sellOrders erase_if_zero quantity with_quantity].
        replace (q - m =? 0) with true by (symmetry; apply Z.eqb_eq; lia).
        destruct rest as [|b' rest']; [exact I|].
        destruct (quantity a - m =? 0).
        - destruct sells as [|a' sells']; [exact I|].
          apply Hlt; cbn; auto.
        - apply (Hlt b' a); cbn; auto. }
      destruct (match_loop_break_inv _ _ _ Hn Hl) as [-> ->].
      cbn [traded_quantity fold_right buyOrders erase_if_zero quantity
           with_quantity].
      replace (q - m =? 0) with true by (symmetry; apply Z.eqb_eq; lia).
      replace (m + 0 =? q) with true by (symmetry; apply Z.eqb_eq; lia).
      split; [repeat constructor; tauto|]. split; [lia|].
      split; [reflexivity|].
      rewrite Ea. cbn [sellOrders]. apply front_consumed_front. lia.
    + (* the front ask is used up *)
      assert (Em : m = quantity a) by (unfold m in *; lia).
      destruct (IH o (q - m) rest) as (F & T & B & C).
      * cbn [buyOrders erase_if_zero quantity with_quantity].
        replace (q - m =? 0) with false by (symmetry; apply Z.eqb_neq; lia).
        reflexivity.
      * lia.
      * cbn [sellOrders erase_if_zero quantity with_quantity].
        replace (quantity a - m =? 0) with true by (symmetry; apply Z.eqb_eq; lia).
        exact Fsells.
      * cbn [sellOrders erase_if_zero quantity with_quantity].
        replace (quantity a - m =? 0) with true by (symmetry; apply Z.eqb_eq; lia).
        intros b' a' Hb' Ha'. apply Hlt; cbn; auto.
      * split; [constructor; auto|]. split; [lia|]. split.
        -- rewrite B.
           destruct (Z.eqb_spec (traded_quantity ts) (q - m)),
                    (Z.eqb_spec (m + traded_quantity ts) q); try lia;
             [reflexivity|].
           do 2 f_equal. lia.
        -- rewrite Ea. apply front_consumed_cons.
           cbn [sellOrders erase_if_zero quantity with_quantity] in C.
           replace (quantity a - m =? 0) with true in C
             by (symmetry; apply Z.eqb_eq; lia).
           exact C.
Qed.

(** The loop when the front ask is the incoming sell order [o], with [q]
    units left, and the other asks are above every bid. *)
Lemma sell_loop s ts s' :
  match_loop s ts s' ->
  forall o q rest,
    sellOrders s = with_quantity o q :: rest ->
    0 < q <= INT_MAX ->
    Forall (fun b => 0 < quantity b <= INT_MAX) (buyOrders s) ->
    (forall b a, In b (buyOrders s) -> In a rest ->
                 Double.ltb (price b) (price a) = true) ->
    Forall (fun t => 0 < trade_quantity t /\ trade_price t = price o) ts /\
    traded_quantity ts <= q /\
    sellOrders s' = (if traded_quantity ts =? q then rest
                     else with_quantity o (q - traded_quantity ts) :: rest) /\
    front_consumed (buyOrders s) (buyOrders s').
Proof.
  induction 1 as [s Hb|s t s1 ts s2 Hc Hl IH]; intros o q rest Ea Hq Fb Hlt.
  - unfold traded_quantity. cbn [fold_right].
    split; [constructor|]. split; [lia|].
    split; [|apply front_consumed_refl].
    destruct (Z.eqb_spec 0 q); [lia|]. now rewrite Z.sub_0_r.
  - apply match_iter_continue in Hc.
    destruct Hc as (b & bs & a & sells & Eb & Ea' & G & _ & _ & -> & ->).
    rewrite Ea in Ea'. injection Ea' as <- <-. rewrite Eb in Fb, Hlt.
    cbn [price quantity with_quantity] in *.
    inversion Fb as [|? ? Hb Fbs]; subst.
    set (m := Z.min (quantity b) q) in *.
    assert (Hm : 0 < m <= q) by (unfold m; lia).
    unfold traded_quantity. cbn [fold_right trade_quantity trade_price].
    fold (traded_quantity ts).
    destruct (Z.eq_dec m q) as [E|N].
    + (* the incoming order is used up *)
      match type of Hl with
      | match_loop ?x _ _ => assert (Hn : match_iter x = Break)
      end.
      { apply non_crossing_break. unfold non_crossing.
        cbn [buyOrders sellOrders erase_if_zero quantity with_quantity].
        replace (q - m =? 0) with true by (symmetry; apply Z.eqb_eq; lia).
        destruct (quantity b - m =? 0).
        - destruct bs as [|b' bs']; [exact I|].
          destruct rest as [|a' rest']; [exact I|].
          apply Hlt; cbn; auto.
        - destruct rest as [|a' rest']; [exact I|].
          apply (Hlt b a'); cbn; auto. }
      destruct (match_loop_break_inv _ _ _ Hn Hl) as [-> ->].
      cbn [traded_quantity fold_right sellOrders erase_if_zero quantity
           with_quantity].
      replace (q - m =? 0) with true by (symmetry; apply Z.eqb_eq; lia).
      replace (m + 0 =? q) with true by (symmetry; apply Z.eqb_eq; lia).
      split; [constructor;
              [split; [cbn [trade_quantity]; lia|reflexivity]|constructor]|].
      split; [lia|]. split; [reflexivity|].
      rewrite Eb. cbn [buyOrders]. apply front_consumed_front. lia.
    + (* the front bid is used up *)
      assert (Em : m = quantity b) by (unfold m in *; lia).
      destruct (IH o (q - m) rest) as (F & T & B & C).
      * cbn [sellOrders erase_if_zero quantity with_quantity].
        replace (q - m =? 0) with false by (symmetry; apply Z.eqb_neq; lia).
        reflexivity.
      * lia.
      * cbn [buyOrders erase_if_zero quantity with_quantity].
        replace (quantity b - m =? 0) with true by (symmetry; apply Z.eqb_eq; lia).
        exact Fbs.
      * cbn [buyOrders erase_if_zero quantity with_quantity].
        replace (quantity b - m =? 0) with true by (symmetry; apply Z.eqb_eq; lia).
        intros b' a' Hb' Ha'. apply Hlt; cbn; auto.
      * split; [constructor;
                [split; [cbn [trade_quantity]; lia|reflexivity]|exact F]|].
        split; [lia|]. split.
        -- rewrite B.
           destruct (Z.eqb_spec (traded_quantity ts) (q - m)),
                    (Z.eqb_spec (m + traded_quantity ts) q); try lia;
             [reflexivity|].
           do 2 f_equal. lia.
        -- rewrite Eb. apply front_consumed_cons.
           cbn [buyOrders erase_if_zero quantity with_quantity] in C.
           replace (quantity b - m =? 0) with true in C
             by (symmetry; apply Z.eqb_eq; lia).
           exact C.
Qed.

Lemma positive_of_valid l :
  Forall valid_order l -> Forall (fun o => 0 < quantity o <= INT_MAX) l.
Proof. apply Forall_impl. intros o [_ H]. exact H. Qed.

Lemma In_snoc_inv {A} (x y : A) l : In x (l ++ [y]) -> In x l \/ x = y.
Proof.
  intros H. apply in_app_or in H. destruct H as [H|[H|[]]]; auto.
Qed.

(** X5.  A valid buy placed after valid submissions.  Every trade of the call
    has a strictly positive quantity and a price not above the limit of the
    order; the call trades at most the quantity of the order; the bids
    left are the bids there were, with the order itself for what was not
    traded; and the asks are consumed from the front, in price order. *)
Theorem incoming_buy_fills (S : StdSort) reqs outs s price quantity p :
  Forall valid_request reqs ->
  run S ExchangeSimulator_new reqs = Some (outs, s) ->
  Double.gtb price Double.zero = true -> 0 < quantity <= INT_MAX ->
  placeOrder S s true price quantity = Some p ->
  Forall (fun t => 0 < trade_quantity t /\
                   Double.leb (trade_price t) price = true)
         (placed_trades p) /\
  traded_quantity (placed_trades p) <= quantity /\
  Permutation
    (buyOrders (placed_book p))
    (if traded_quantity (placed_trades p) =? quantity then buyOrders s
     else mkOrder (orderIdCounter s) true price
                  (quantity - traded_quantity (placed_trades p))
          :: buyOrders s) /\
  front_consumed (sellOrders s) (sellOrders (placed_book p)).
Proof.
  intros Hr Hrun Hp Hq H.
  destruct (run_valid_non_crossing S reqs outs s Hr Hrun) as [Hv Hn].
  pose proof (bids_below_asks s Hv Hn) as Hlt.
  apply placeOrder_inv in H. destruct H as (order & s1 & Hi & Hl & _).
  pose proof (insertOrder_valid _ _ _ _ _ _ _ Hv Hp Hq Hi) as (_ & Vs1 & _).
  apply insertOrder_inv in Hi. destruct Hi as (_ & -> & _ & E1 & E2).
  set (order := mkOrder (orderIdCounter s) true price quantity) in *.
  destruct Hv as (Vb & Vs & _).
  assert (HP : Permutation (buyOrders s ++ [order]) (buyOrders s1)).
  { rewrite E1. apply std_sort_permutation. apply price_greater_swo_on.
    apply nan_free_snoc; [now apply valid_orders_nan_free|].
    now apply DoubleFacts.gtb_zero_not_nan. }
  destruct (match_iter s1) as [|t0 s0|] eqn:M.
  - (* no crossing: the order rests whole *)
    destruct (match_loop_break_inv _ _ _ M Hl) as [Ets ->]. rewrite Ets.
    unfold traded_quantity. cbn [fold_right].
    split; [constructor|]. split; [lia|].
    split; [|rewrite E2; apply front_consumed_refl].
    destruct (Z.eqb_spec 0 quantity); [lia|]. rewrite Z.sub_0_r.
    rewrite <- HP. symmetry. apply Permutation_cons_append.
  - (* crossing: the order is at the front of the bids *)
    pose proof M as M'. apply match_iter_continue in M'.
    destruct M' as (b & bs & a & sells & Eb & Ea & G & _).
    assert (Hb : b = order).
    { assert (Hin : In b (buyOrders s ++ [order])).
      { eapply Permutation_in; [symmetry; exact HP|]. rewrite Eb. now left. }
      apply In_snoc_inv in Hin. destruct Hin as [Hin|Hin]; [exfalso|exact Hin].
      assert (Ha : In a (sellOrders s)) by (rewrite <- E2, Ea; now left).
      pose proof (Hlt b a Hin Ha) as L.
      apply DoubleFacts.ltb_geb_false in L. congruence. }
    subst b.
    assert (HP' : Permutation (buyOrders s) bs).
    { apply Permutation_cons_inv with (a := order).
      rewrite (Permutation_cons_append (buyOrders s) order), HP, Eb.
      reflexivity. }
    destruct (buy_loop s1 (placed_trades p) (placed_book p) Hl order quantity bs)
      as (F & T & B & C).
    + exact Eb.
    + exact Hq.
    + now apply positive_of_valid.
    + intros b' a' Hb' Ha'. apply Hlt.
      * eapply Permutation_in; [symmetry; exact HP'|exact Hb'].
      * now rewrite <- E2.
    + split; [exact F|]. split; [exact T|].
      split; [|rewrite <- E2; exact C]. rewrite B.
      destruct (traded_quantity (placed_trades p) =? quantity).
      * now symmetry.
      * constructor. now symmetry.
  - inversion Hl; congruence.
Qed.

(** X6.  A valid sell placed after valid submissions.  Every trade of the call
    has a strictly positive quantity and is made at the price of the
    incoming order itself, whatever the bids offer; the call trades at most
    the quantity of the order; the asks left are the asks there were, with
    the order itself for what was not traded; and the bids are consumed from
    the front, in price order. *)
Theorem incoming_sell_fills (S : StdSort) reqs outs s price quantity p :
  Forall valid_request reqs ->
  run S ExchangeSimulator_new reqs = Some (outs, s) ->
  Double.gtb price Double.zero = true -> 0 < quantity <= INT_MAX ->
  placeOrder S s false price quantity = Some p ->
  Forall (fun t => 0 < trade_quantity t /\ trade_price t = price)
         (placed_trades p) /\
  traded_quantity (placed_trades p) <= quantity /\
  Permutation
    (sellOrders (placed_book p))
    (if traded_quantity (placed_trades p) =? quantity then sellOrders s
     else mkOrder (orderIdCounter s) false price
                  (quantity - traded_quantity (placed_trades p))
          :: sellOrders s) /\
  front_consumed (buyOrders s) (buyOrders (placed_book p)).
Proof.
  intros Hr Hrun Hp Hq H.
  destruct (run_valid_non_crossing S reqs outs s Hr Hrun) as [Hv Hn].
  pose proof (bids_below_asks s Hv Hn) as Hlt.
  apply placeOrder_inv in H. destruct H as (order & s1 & Hi & Hl & _).
  pose proof (insertOrder_valid _ _ _ _ _ _ _ Hv Hp Hq Hi) as (Vb1 & _).
  apply insertOrder_inv in Hi. destruct Hi as (_ & -> & _ & E1 & E2).
  set (order := mkOrder (orderIdCounter s) false price quantity) in *.
  destruct Hv as (Vb & Vs & _).
  assert (HP : Permutation (sellOrders s ++ [order]) (sellOrders s1)).
  { rewrite E1. apply std_sort_permutation. apply price_less_swo_on.
    apply nan_free_snoc; [now apply valid_orders_nan_free|].
    now apply DoubleFacts.gtb_zero_not_nan. }
  destruct (match_iter s1) as [|t0 s0|] eqn:M.
  - destruct (match_loop_break_inv _ _ _ M Hl) as [Ets ->]. rewrite Ets.
    unfold traded_quantity. cbn [fold_right].
    split; [constructor|]. split; [lia|].
    split; [|rewrite E2; apply front_consumed_refl].
    destruct (Z.eqb_spec 0 quantity); [lia|]. rewrite Z.sub_0_r.
    rewrite <- HP. symmetry. apply Permutation_cons_append.
  - pose proof M as M'. apply match_iter_continue in M'.
    destruct M' as (b & bs & a & sells & Eb & Ea & G & _).
    assert (Ha : a = order).
    { assert (Hin : In a (sellOrders s ++ [order])).
      { eapply Permutation_in; [symmetry; exact HP|]. rewrite Ea. now left. }
      apply In_snoc_inv in Hin. destruct Hin as [Hin|Hin]; [exfalso|exact Hin].
      assert (Hb : In b (buyOrders s)) by (rewrite <- E2, Eb; now left).
      pose proof (Hlt b a Hb Hin) as L.
      apply DoubleFacts.ltb_geb_false in L. congruence. }
    subst a.
    assert (HP' : Permutation (sellOrders s) sells).
    { apply Permutation_cons_inv with (a := order).
      rewrite (Permutation_cons_append (sellOrders s) order), HP, Ea.
      reflexivity. }
    destruct (sell_loop s1 (placed_trades p) (placed_book p) Hl order quantity sells)
      as (F & T & B & C).
    + exact Ea.
    + exact Hq.
    + now apply positive_of_valid.
    + intros b' a' Hb' Ha'. apply Hlt.
      * now rewrite <- E2.
      * eapply Permutation_in; [symmetry; exact HP'|exact Ha'].
    + split; [exact F|]. split; [exact T|].
      split; [|rewrite <- E2; exact C]. rewrite B.
      destruct (traded_quantity (placed_trades p) =? quantity).
      * now symmetry.
      * constructor. now symmetry.
  - inversion Hl; congruence.
Qed.

Definition buy_15_at_60_placed : Placed :=
  {| placed_id := 1;
     placed_trades := [ mkTrade 10 (Double.of_Z 50) ];
     placed_book :=
       {| buyOrders := [ mkOrder 1 true (Double.of_Z 60) 5 ];
          sellOrders := [];
          orderIdCounter := 2 |} |}.

Lemma run_sell_50 :
  run libstdcxx_sort ExchangeSimulator_new
      [ mkRequest false (Double.of_Z 50) 10 ]
  = Some ([ (0, []) ], resting_sell_50).
Proof. vm_compute. reflexivity. Qed.

Lemma sell_50_valid :
  Forall valid_request [ mkRequest false (Double.of_Z 50) 10 ].
Proof. valid_requests. Qed.

Lemma place_buy_15_at_60 :
  placeOrder libstdcxx_sort resting_sell_50 true (Double.of_Z 60) 15
  = Some buy_15_at_60_placed.
Proof. vm_compute. reflexivity. Qed.

(** A buy of 15 at 60 against a resting sell of 10 at 50: one trade of 10
    at 50, and 5 units of the order rest. *)
Lemma incoming_buy_fills_15_at_60 :
  Forall (fun t => 0 < trade_quantity t /\
                   Double.leb (trade_price t) (Double.of_Z 60) = true)
         (placed_trades buy_15_at_60_placed) /\
  traded_quantity (placed_trades buy_15_at_60_placed) <= 15 /\
  Permutation
    (buyOrders (placed_book buy_15_at_60_placed))
    (if traded_quantity (placed_trades buy_15_at_60_placed) =? 15
     then buyOrders resting_sell_50
     else mkOrder (orderIdCounter resting_sell_50) true (Double.of_Z 60)
                  (15 - traded_quantity (placed_trades buy_15_at_60_placed))
          :: buyOrders resting_sell_50) /\
  front_consumed (sellOrders resting_sell_50)
                 (sellOrders (placed_book buy_15_at_60_placed)).
Proof.
  refine (incoming_buy_fills libstdcxx_sort
            [ mkRequest false (Double.of_Z 50) 10 ] [ (0, []) ]
            resting_sell_50 (Double.of_Z 60) 15 buy_15_at_60_placed
            sell_50_valid run_sell_50 _ _ place_buy_15_at_60).
  - reflexivity.
  - unfold INT_MAX. lia.
Defined.

Lemma two_buys_valid : Forall valid_request (firstn 2 main_orders).
Proof. cbn [firstn main_orders]. valid_requests. Qed.

Lemma run_two_buys :
  run libstdcxx_sort ExchangeSimulator_new (firstn 2 main_orders)
  = Some ([ (0, []); (1, []) ], book_after_second_order).
Proof. vm_compute. reflexivity. Qed.

(** The third call of [main]: the sell of 75 at 100 trades 75 at its own
    price and does not rest. *)
Lemma incoming_sell_fills_main :
  Forall (fun t => 0 < trade_quantity t /\ trade_price t = Double.of_Z 100)
         [ mkTrade 75 (Double.of_Z 100) ] /\
  traded_quantity [ mkTrade 75 (Double.of_Z 100) ] <= 75 /\
  Permutation
    (sellOrders book_after_third_order)
    (if traded_quantity [ mkTrade 75 (Double.of_Z 100) ] =? 75
     then sellOrders book_after_second_order
     else mkOrder (orderIdCounter book_after_second_order) false
                  (Double.of_Z 100)
                  (75 - traded_quantity [ mkTrade 75 (Double.of_Z 100) ])
          :: sellOrders book_after_second_order) /\
  front_consumed (buyOrders book_after_second_order)
                 (buyOrders book_after_third_order).
Proof.
  refine (incoming_sell_fills libstdcxx_sort (firstn 2 main_orders)
            [ (0, []); (1, []) ] book_after_second_order (Double.of_Z 100) 75
            {| placed_id := 2;
               placed_trades := [ mkTrade 75 (Double.of_Z 100) ];
               placed_book := book_after_third_order |}
            two_buys_valid run_two_buys _ _
            (main_third_call libstdcxx_sort)).
  - reflexivity.
  - unfold INT_MAX. lia.
Defined.

(** ** Price priority *)

(** A trade between the best-priced orders: the two fronts trade, as
    [trade_at_fronts] has it, and no other bid is priced above the bid that
    trades, no other ask below the ask that trades. *)
Definition trade_at_best_prices (s : ExchangeSimulator) (t : Trade)
    (s1 : ExchangeSimulator) : Prop :=
  exists b bs a sells,
    buyOrders s = b :: bs /\ sellOrders s = a :: sells /\
    trade_quantity t = Z.min (quantity b) (quantity a) /\
    trade_price t = price a /\
    Forall (fun x => Double.geb (price b) (price x) = true) bs /\
    Forall (fun x => Double.leb (price a) (price x) = true) sells /\
    buyOrders s1 =
      (if quantity b =? trade_quantity t then bs
       else with_quantity b (quantity b - trade_quantity t) :: bs) /\
    sellOrders s1 =
      (if quantity a =? trade_quantity t then sells
       else with_quantity a (quantity a - trade_quantity t) :: sells).

Lemma match_loop_steps_inv
    (I : ExchangeSimulator -> Prop)
    (R : ExchangeSimulator -> Trade -> ExchangeSimulator -> Prop) :
  (forall s t s1, I s -> match_iter s = Continue t s1 -> R s t s1 /\ I s1) ->
  forall s ts s', match_loop s ts s' -> I s -> steps R s ts s'.
Proof.
  intros HR s ts s'. induction 1 as [s _|s t s1 ts s2 Hc _ IH]; intros Hi.
  - constructor.
  - destruct (HR s t s1 Hi Hc) as [Hr Hi1]. econstructor; eauto.
Qed.

Lemma match_iter_best_prices s t s1 :
  book_valid s -> match_iter s = Continue t s1 -> trade_at_best_prices s t s1.
Proof.
  intros Hv H. destruct (book_valid_price_order s Hv) as [Pb Ps].
  apply match_iter_trade_at_fronts in H.
  destruct H as (b & bs & a & sells & Eb & Ea & Hq & Hp & Hb1 & Hs1).
  rewrite Eb in Pb. rewrite Ea in Ps.
  exists b, bs, a, sells.
  split; [exact Eb|]. split; [exact Ea|]. split; [exact Hq|].
  split; [exact Hp|].
  split; [now inversion Pb|]. split; [now inversion Ps|].
  split; [exact Hb1|exact Hs1].
Qed.

(** X7.  Every trade of a valid order placed after valid submissions is made
    between the highest-priced bid and the lowest-priced ask of the book as
    it stands at that iteration, the book of each iteration being the one
    the trade before it leaves. *)
Theorem trades_at_best_prices (S : StdSort) reqs outs s r p :
  Forall valid_request reqs ->
  run S ExchangeSimulator_new reqs = Some (outs, s) ->
  valid_request r ->
  submit S s r = Some p ->
  exists order s1,
    insertOrder S s (req_isBuy r) (req_price r) (req_quantity r)
      = Some (order, s1) /\
    steps trade_at_best_prices s1 (placed_trades p) (placed_book p).
Proof.
  intros Hr Hrun [Hp Hq] H.
  pose proof (run_book_valid S reqs outs s Hr Hrun) as Hv.
  apply placeOrder_inv in H. destruct H as (order & s1 & Hi & Hl & _).
  exists order, s1. split; [exact Hi|].
  pose proof (insertOrder_valid _ _ _ _ _ _ _ Hv Hp Hq Hi) as Hv1.
  apply (match_loop_steps_inv book_valid) with (2 := Hl); [|exact Hv1].
  intros s0 t s2 Hv0 Hc. split.
  - now apply match_iter_best_prices.
  - eapply match_iter_valid; eauto.
Qed.

Lemma sell_75_valid : valid_request (mkRequest false (Double.of_Z 100) 75).
Proof. split; [reflexivity|cbn; unfold INT_MAX; lia]. Qed.

Lemma trades_at_best_prices_main :
  exists order s1,
    insertOrder libstdcxx_sort book_after_second_order false
                (Double.of_Z 100) 75 = Some (order, s1) /\
    steps trade_at_best_prices s1 [ mkTrade 75 (Double.of_Z 100) ]
          book_after_third_order.
Proof.
  exact (trades_at_best_prices libstdcxx_sort (firstn 2 main_orders)
           [ (0, []); (1, []) ] book_after_second_order
           (mkRequest false (Double.of_Z 100) 75)
           {| placed_id := 2;
              placed_trades := [ mkTrade 75 (Double.of_Z 100) ];
              placed_book := book_after_third_order |}
           two_buys_valid run_two_buys sell_75_valid
           (main_third_call libstdcxx_sort)).
Defined.

(** ** Valid submissions always return *)

(** X8.  Up to [INT_MAX] valid submissions on the empty book all return: no
    arithmetic of the calls overflows and every matching loop ends. *)
Theorem valid_run_returns (S : StdSort) reqs :
  Forall valid_request reqs ->
  Z.of_nat (length reqs) <= INT_MAX ->
  exists outs s, run S ExchangeSimulator_new reqs = Some (outs, s).
Proof.
  intros Hr Hn. apply run_defined; auto.
  - apply new_book_valid.
  - cbn. unfold INT_MIN. lia.
Qed.

Lemma valid_run_returns_main :
  exists outs s,
    run libstdcxx_sort ExchangeSimulator_new main_orders = Some (outs, s).
Proof.
  refine (valid_run_returns libstdcxx_sort main_orders main_orders_valid _).
  cbn. unfold INT_MAX. lia.
Defined.

(** ** An order with a quantity that is not positive *)

Lemma gtb_irrefl x : Double.gtb x x = false.
Proof.
  destruct (Double.is_nan x) eqn:E.
  - now apply DoubleFacts.gtb_nan_l.
  - apply DoubleFacts.gtb_false_key; auto. by_keys.
Qed.

(** X9.  [placeOrder] does not look at the sign of the quantity.  On a book
    with no bid whose front ask has a positive quantity, a buy with a zero
    or negative quantity [q] that crosses that ask prints a trade of [q]
    units at the price of the ask and does not rest, and the ask is left
    with its quantity raised by [- q]; this as long as the raised quantity
    and the next id are [int]s. *)
Theorem nonpositive_buy_raises_ask (S : StdSort) s limit q a sells :
  buyOrders s = [] -> sellOrders s = a :: sells ->
  Double.geb limit (price a) = true ->
  q <= 0 -> INT_MIN <= q -> 0 < quantity a -> quantity a - q <= INT_MAX ->
  INT_MIN <= orderIdCounter s < INT_MAX ->
  placeOrder S s true limit q
  = Some {| placed_id := orderIdCounter s;
            placed_trades := [ mkTrade q (price a) ];
            placed_book :=
              {| buyOrders := [];
                 sellOrders := with_quantity a (quantity a - q) :: sells;
                 orderIdCounter := orderIdCounter s + 1 |} |}.
Proof.
  intros Eb Ea G Hq Hq' Ha Hsum Hc.
  unfold placeOrder. rewrite insertOrder_some by lia. cbv zeta.
  rewrite Eb, Ea. cbn [app].
  rewrite std_sort_singleton by apply gtb_irrefl.
  set (o := mkOrder (orderIdCounter s) true limit q).
  set (s1 := mkExchange [o] (a :: sells) (orderIdCounter s + 1)).
  set (s2 := mkExchange [] (with_quantity a (quantity a - q) :: sells)
                        (orderIdCounter s + 1)).
  assert (M1 : match_iter s1 = Continue (mkTrade q (price a)) s2).
  { unfold match_iter, s1, s2, o. cbn [buyOrders sellOrders price quantity].
    rewrite G. rewrite Z.min_l by lia. unfold int_sub.
    rewrite !int_result_in_range by (unfold INT_MIN, INT_MAX in *; lia).
    cbn [erase_if_zero with_quantity quantity orderIdCounter].
    rewrite Z.sub_diag. cbn [Z.eqb].
    replace (quantity a - q =? 0) with false by (symmetry; apply Z.eqb_neq; lia).
    reflexivity. }
  assert (M2 : match_loop s1 [mkTrade q (price a)] s2).
  { econstructor; [exact M1|]. constructor. reflexivity. }
  apply matchOrders_loop in M2. rewrite M2. reflexivity.
Qed.

Lemma nonpositive_buy_raises_ask_example :
  placeOrder libstdcxx_sort resting_sell_50 true (Double.of_Z 60) (-5)
  = Some {| placed_id := 1;
            placed_trades := [ mkTrade (-5) (Double.of_Z 50) ];
            placed_book :=
              {| buyOrders := [];
                 sellOrders := [ mkOrder 0 false (Double.of_Z 50) 15 ];
                 orderIdCounter := 2 |} |}.
Proof.
  refine (nonpositive_buy_raises_ask libstdcxx_sort resting_sell_50
            (Double.of_Z 60) (-5) (mkOrder 0 false (Double.of_Z 50) 10) []
            _ _ _ _ _ _ _ _); try reflexivity;
    cbn; unfold INT_MIN, INT_MAX; lia.
Defined.

(** ** The quantity resting in the book *)

Lemma total_quantity_app l1 l2 :
  total_quantity (l1 ++ l2) = total_quantity l1 + total_quantity l2.
Proof.
  induction l1 as [|o l1 IH]; unfold total_quantity in *;
    cbn [app fold_right] in *; lia.
Qed.

Lemma total_quantity_permutation l l' :
  Permutation l l' -> total_quantity l = total_quantity l'.
Proof.
  induction 1; unfold total_quantity in *; cbn [fold_right] in *; lia.
Qed.

(** X10.  The account of one call, for any book and any order without a NaN
    price, valid or not: the quantity resting after the call is the quantity
    resting before, plus the quantity of the order, minus twice the quantity
    traded (each trade takes its quantity from both sides). *)
Theorem resting_quantity_account (S : StdSort) s isBuy limit q p :
  nan_free (buyOrders s) -> nan_free (sellOrders s) ->
  Double.is_nan limit = false ->
  placeOrder S s isBuy limit q = Some p ->
  resting_quantity (placed_book p)
  = resting_quantity s + q - 2 * traded_quantity (placed_trades p).
Proof.
  intros Nb Ns Hp H. apply placeOrder_inv in H.
  destruct H as (order & s1 & Hi & Hl & _).
  assert (Hs : steps trade_conserves s1 (placed_trades p) (placed_book p)).
  { apply match_loop_steps with (2 := Hl). apply match_iter_trade_conserves. }
  apply steps_conserve in Hs. destruct Hs as [Cb Cs].
  apply insertOrder_inv in Hi. destruct Hi as (_ & -> & _ & H).
  set (order := mkOrder _ _ _ _) in *.
  assert (E : resting_quantity s1 = resting_quantity s + q).
  { unfold resting_quantity. destruct isBuy; destruct H as [-> ->].
    - rewrite <- (total_quantity_permutation _ _
                    (std_sort_permutation S _ price_greater _
                       (price_greater_swo_on _ (nan_free_snoc _ order Nb Hp)))).
      rewrite total_quantity_app. unfold total_quantity at 2.
      cbn [fold_right quantity order]. lia.
    - rewrite <- (total_quantity_permutation _ _
                    (std_sort_permutation S _ price_less _
                       (price_less_swo_on _ (nan_free_snoc _ order Ns Hp)))).
      rewrite total_quantity_app. unfold total_quantity at 3.
      cbn [fold_right quantity order]. lia. }
  unfold resting_quantity in *. lia.
Qed.

Lemma resting_quantity_account_buy_15_at_60 :
  resting_quantity (placed_book buy_15_at_60_placed)
  = resting_quantity resting_sell_50 + 15
    - 2 * traded_quantity (placed_trades buy_15_at_60_placed).
Proof.
  refine (resting_quantity_account libstdcxx_sort resting_sell_50 true
            (Double.of_Z 60) 15 buy_15_at_60_placed _ _ _ place_buy_15_at_60).
  - constructor.
  - repeat constructor.
  - reflexivity.
Defined.

(** * The option pricer and the back-tester (lines 9-28 and 97-127)

    Arithmetic on [double] is that of IEEE 754 binary64, each operation
    rounded to nearest.  [std::sqrt] is the correctly rounded square root.
    [std::erf], [std::log] and [std::exp] are functions of the C library
    that have no definition here: the pricer takes them as a parameter. *)

Module Pricing.

Definition add : Double.double -> Double.double -> Double.double := SFadd 53 1024.
Definition sub : Double.double -> Double.double -> Double.double := SFsub 53 1024.
Definition mul : Double.double -> Double.double -> Double.double := SFmul 53 1024.
Definition div : Double.double -> Double.double -> Double.double := SFdiv 53 1024.
Definition sqrt : Double.double -> Double.double := SFsqrt 53 1024.
Definition opp : Double.double -> Double.double := SFopp.

(** The literals [0.5], [1.0] and [2.0]. *)
Definition half : Double.double := binary_normalize 53 1024 1 (-1) false.
Definition one : Double.double := Double.of_Z 1.
Definition two : Double.double := Double.of_Z 2.

Record Libm : Type := mkLibm {
  erf : Double.double -> Double.double;
  log : Double.double -> Double.double;
  exp : Double.double -> Double.double
}.

(** [OptionPricer::norm_cdf] (lines 12-14). *)
Definition norm_cdf (m : Libm) (x : Double.double) : Double.double :=
  mul half (add one (erf m (div x (sqrt two)))).

(** The [d1] and [d2] of lines 18-19 and 24-25. *)
Definition d1 (m : Libm) (S K T r sigma : Double.double) : Double.double :=
  div (add (log m (div S K)) (mul (add r (mul (mul half sigma) sigma)) T))
      (mul sigma (sqrt T)).

Definition d2 (m : Libm) (S K T r sigma : Double.double) : Double.double :=
  sub (d1 m S K T r sigma) (mul sigma (sqrt T)).

(** [OptionPricer::blackScholesCall] (lines 17-21). *)
Definition blackScholesCall (m : Libm) (S K T r sigma : Double.double)
  : Double.double :=
  sub (mul S (norm_cdf m (d1 m S K T r sigma)))
      (mul (mul K (exp m (mul (opp r) T))) (norm_cdf m (d2 m S K T r sigma))).

(** [OptionPricer::blackScholesPut] (lines 23-27). *)
Definition blackScholesPut (m : Libm) (S K T r sigma : Double.double)
  : Double.double :=
  sub (mul (mul K (exp m (mul (opp r) T)))
           (norm_cdf m (opp (d2 m S K T r sigma))))
      (mul S (norm_cdf m (opp (d1 m S K T r sigma)))).

(** [class BackTester]: its state is the vector of historical prices. *)
Record BackTester : Type := mkBackTester {
  historicalPrices : list Double.double
}.

Definition BackTester_new : BackTester := {| historicalPrices := [] |}.

(** [BackTester::addHistoricalPrice] (lines 104-106). *)
Definition addHistoricalPrice (bt : BackTester) (price : Double.double)
  : BackTester :=
  {| historicalPrices := historicalPrices bt ++ [price] |}.

(** The average of lines 110-115: [std::accumulate] from [0.0], divided by
    the size converted to [double]; [0.0] for an empty history. *)
Definition averagePrice (prices : list Double.double) : Double.double :=
  match prices with
  | [] => Double.zero
  | _ :: _ =>
      div (fold_left add prices Double.zero)
          (Double.of_Z (Z.of_nat (length prices)))
  end.

(** [BackTester::testOptionStrategy] (lines 108-126). *)
Definition testOptionStrategy (m : Libm) (bt : BackTester)
    (K T r sigma : Double.double) (isCall : bool) : Double.double :=
  let avgPrice := averagePrice (historicalPrices bt) in
  fold_left
    (fun totalProfit S =>
       let optionPrice :=
         if isCall then blackScholesCall m S K T r sigma
         else blackScholesPut m S K T r sigma in
       if Double.ltb S avgPrice then add totalProfit optionPrice
       else totalProfit)
    (historicalPrices bt) Double.zero.

Lemma add_nan_l x : Double.is_nan x = true -> forall y, Double.is_nan (add x y) = true.
Proof. destruct x; try discriminate. reflexivity. Qed.

Lemma add_nan_r y : Double.is_nan y = true -> forall x, Double.is_nan (add x y) = true.
Proof. destruct y; try discriminate. intros _ x. destruct x; reflexivity. Qed.

Lemma div_nan_l x : Double.is_nan x = true -> forall y, Double.is_nan (div x y) = true.
Proof. destruct x; try discriminate. reflexivity. Qed.

Lemma ltb_nan_r x y : Double.is_nan y = true -> Double.ltb x y = false.
Proof. destruct y; try discriminate. intros _. destruct x; reflexivity. Qed.

(** Once the running sum is a NaN it stays one, and a NaN among the terms
    makes it one. *)
Lemma sum_nan_acc prices : forall acc,
  Double.is_nan acc = true -> Double.is_nan (fold_left add prices acc) = true.
Proof.
  induction prices as [|x prices IH]; intros acc H; cbn [fold_left]; [exact H|].
  apply IH. now apply add_nan_l.
Qed.

Lemma sum_nan prices : forall acc,
  Exists (fun x => Double.is_nan x = true) prices ->
  Double.is_nan (fold_left add prices acc) = true.
Proof.
  induction prices as [|x prices IH]; intros acc H; [inversion H|].
  cbn [fold_left]. inversion H as [? ? Hx|? ? Hx]; subst.
  - apply sum_nan_acc. now apply add_nan_r.
  - now apply IH.
Qed.

Lemma average_nan prices :
  Exists (fun x => Double.is_nan x = true) prices ->
  Double.is_nan (averagePrice prices) = true.
Proof.
  intros H. destruct prices as [|x prices]; [inversion H|].
  unfold averagePrice. apply div_nan_l. now apply sum_nan.
Qed.

Lemma history_after_adds later : forall bt,
  historicalPrices (fold_left addHistoricalPrice later bt)
  = historicalPrices bt ++ later.
Proof.
  induction later as [|x later IH]; intros bt; cbn [fold_left].
  - now rewrite app_nil_r.
  - rewrite IH. cbn [addHistoricalPrice historicalPrices].
    now rewrite <- app_assoc.
Qed.

(** X11.  A NaN recorded in the history silences the strategy: whatever was
    recorded before and whatever is recorded after, and whatever the C
    library computes, [testOptionStrategy] returns [0.0] for a call and for
    a put, because no price compares below the average, itself a NaN. *)
Theorem nan_price_silences_strategy (m : Libm) bt p later K T r sigma isCall :
  Double.is_nan p = true ->
  testOptionStrategy m
    (fold_left addHistoricalPrice later (addHistoricalPrice bt p))
    K T r sigma isCall
  = Double.zero.
Proof.
  intros Hp. unfold testOptionStrategy. rewrite history_after_adds.
  cbn [addHistoricalPrice historicalPrices].
  set (prices := (historicalPrices bt ++ [p]) ++ later).
  assert (Ha : Double.is_nan (averagePrice prices) = true).
  { apply average_nan. unfold prices.
    apply Exists_app. left. apply Exists_app. right. now constructor. }
  set (avg := averagePrice prices) in *. clearbody avg.
  generalize prices Double.zero. clear prices.
  induction prices as [|x l IH]; intros acc; [reflexivity|].
  cbn [fold_left]. cbv zeta. rewrite (ltb_nan_r x avg Ha). apply IH.
Qed.

(** A stand-in for the C library in the examples below; the statements
    hold for every library. *)
Definition identity_libm : Libm :=
  {| erf := fun x => x; log := fun x => x; exp := fun x => x |}.

Lemma nan_price_silences_strategy_example :
  testOptionStrategy identity_libm
    (fold_left addHistoricalPrice [ Double.of_Z 105; Double.of_Z 98 ]
       (addHistoricalPrice
          (addHistoricalPrice BackTester_new (Double.of_Z 95)) S754_nan))
    (Double.of_Z 100) one half half true
  = Double.zero.
Proof.
  exact (nan_price_silences_strategy identity_libm
           (addHistoricalPrice BackTester_new (Double.of_Z 95)) S754_nan
           [ Double.of_Z 105; Double.of_Z 98 ]
           (Double.of_Z 100) one half half true eq_refl).
Defined.

Lemma mul_nan_l x : Double.is_nan x = true -> forall y, Double.is_nan (mul x y) = true.
Proof. destruct x; try discriminate. reflexivity. Qed.

Lemma sub_nan_l x : Double.is_nan x = true -> forall y, Double.is_nan (sub x y) = true.
Proof. destruct x; try discriminate. reflexivity. Qed.

Lemma sub_nan_r y : Double.is_nan y = true -> forall x, Double.is_nan (sub x y) = true.
Proof. destruct y; try discriminate. intros _ x. destruct x; reflexivity. Qed.

(** X12.  A NaN spot price or a NaN strike gives a NaN price, for the call and
    for the put, whatever the C library computes: the spot and the strike
    are multiplied into the two terms of the result. *)
Theorem nan_spot_or_strike (m : Libm) S K T r sigma :
  Double.is_nan S = true \/ Double.is_nan K = true ->
  Double.is_nan (blackScholesCall m S K T r sigma) = true /\
  Double.is_nan (blackScholesPut m S K T r sigma) = true.
Proof.
  intros [H|H]; unfold blackScholesCall, blackScholesPut; split.
  - apply sub_nan_l. now apply mul_nan_l.
  - apply sub_nan_r. now apply mul_nan_l.
  - apply sub_nan_r. apply mul_nan_l. now apply mul_nan_l.
  - apply sub_nan_l. apply mul_nan_l. now apply mul_nan_l.
Qed.

Lemma nan_spot_or_strike_example :
  Double.is_nan
    (blackScholesCall identity_libm S754_nan (Double.of_Z 100) one half half)
    = true /\
  Double.is_nan
    (blackScholesPut identity_libm S754_nan (Double.of_Z 100) one half half)
    = true.
Proof.
  exact (nan_spot_or_strike identity_libm S754_nan (Double.of_Z 100)
           one half half (or_introl eq_refl)).
Defined.

End Pricing.
